(** * Linksys boot-counter reset (package/system/mtd/src/linksys_bootcount.c)

    A shallow embedding of [mtd_resetbc] and the properties of its
    record layout, log scan, erase scope and write-back.

    Machine integers are [Z] with the wrap-around of their C type written
    out; flash and heap memory are maps from byte offsets to bytes; every
    call the function makes on its environment (ioctl, malloc, pread,
    pwrite, sync, free, close and the DLOG macros) is recorded, in order,
    in a trace.  [mtd_check_open], which belongs to the rest of the
    package, is taken to have returned the descriptor of the device. *)

From Stdlib Require Import ZArith List Bool Lia.
From Stdlib Require Import Strings.Byte.
Import ListNotations.
Local Open Scope Z_scope.

(** ** Machine integers *)

(** [uint32_t] / [unsigned int]. *)
Definition u32 (x : Z) : Z := x mod 2 ^ 32.

(** [int]: conversion of an out-of-range value wraps (two's complement). *)
Definition s32 (x : Z) : Z := (x + 2 ^ 31) mod 2 ^ 32 - 2 ^ 31.

(** [size_t], whose width depends on the target. *)
Definition to_size_t (bits : Z) (x : Z) : Z := x mod 2 ^ bits.

(** ** Memory *)

Definition mem := Z -> byte.

Definition byte_val (b : byte) : Z := Z.of_N (Byte.to_N b).

Definition byte_of_Z (z : Z) : byte :=
  match Byte.of_N (Z.to_N (z mod 256)) with
  | Some b => b
  | None => x00
  end.

Definition load_bytes (m : mem) (off len : Z) : list byte :=
  map (fun k => m (off + Z.of_nat k)) (seq 0 (Z.to_nat len)).

Definition store_bytes (m : mem) (off : Z) (bs : list byte) : mem :=
  fun a =>
    if (off <=? a) && (a <? off + Z.of_nat (length bs))
    then nth (Z.to_nat (a - off)) bs x00
    else m a.

(** [memset(p, v, len)], and the effect of a flash erase. *)
Definition fill_bytes (m : mem) (off len : Z) (v : byte) : mem :=
  fun a => if (off <=? a) && (a <? off + len) then v else m a.

Definition mem_of_list (l : list byte) (dflt : byte) : mem :=
  fun a => if a <? 0 then dflt else nth (Z.to_nat a) l dflt.

(** A [uint32_t] object in the byte order of the host. *)
Definition word_of_bytes (b0 b1 b2 b3 : byte) : Z :=
  byte_val b0 + 2 ^ 8 * byte_val b1 + 2 ^ 16 * byte_val b2
  + 2 ^ 24 * byte_val b3.

Definition load_u32 (big_endian : bool) (m : mem) (off : Z) : Z :=
  if big_endian
  then word_of_bytes (m (off + 3)) (m (off + 2)) (m (off + 1)) (m off)
  else word_of_bytes (m off) (m (off + 1)) (m (off + 2)) (m (off + 3)).

Definition bytes_of_u32 (big_endian : bool) (v : Z) : list byte :=
  let le := [byte_of_Z v; byte_of_Z (v / 2 ^ 8); byte_of_Z (v / 2 ^ 16);
             byte_of_Z (v / 2 ^ 24)] in
  if big_endian then rev le else le.

Definition store_u32 (big_endian : bool) (m : mem) (off v : Z) : mem :=
  store_bytes m off (bytes_of_u32 big_endian v).

(** ** Constants and the record *)

Definition BOOTCOUNT_MAGIC : Z := 0x20110811.
Definition BC_OFFSET_INCREMENT_MIN : Z := 16.

(** [struct bootcounter { uint32_t magic; uint32_t count; uint32_t checksum; }] *)
Definition sizeof_bootcounter : Z := 12.
Definition off_magic : Z := 0.
Definition off_count : Z := 4.
Definition off_checksum : Z := 8.

(** ** Device geometry

    The three fields of [struct mtd_info_user] (declared in
    <mtd/mtd-user.h>, all [__u32]) that the function reads. *)
Record mtd_info_user := {
  size : Z;
  erasesize : Z;
  writesize : Z
}.

Definition wf_info (g : mtd_info_user) : Prop :=
  0 <= size g < 2 ^ 32 /\ 0 <= erasesize g < 2 ^ 32
  /\ 0 <= writesize g < 2 ^ 32.

(** Lines 105-113. *)
Definition bc_offset_increment (g : mtd_info_user) : Z :=
  if writesize g <? BC_OFFSET_INCREMENT_MIN
  then BC_OFFSET_INCREMENT_MIN
  else writesize g.

(** Lines 115-122; [erase_size] is an [int]. *)
Definition erase_size (g : mtd_info_user) : Z :=
  if erasesize g <? bc_offset_increment g
  then s32 (bc_offset_increment g)
  else s32 (erasesize g).

(** Line 124: [int / unsigned int] is an unsigned division, stored in an [int]. *)
Definition page_num_bc (g : mtd_info_user) : Z :=
  s32 (u32 (erase_size g) / bc_offset_increment g).

(** Line 131. *)
Definition num_bc (g : mtd_info_user) : Z :=
  s32 (size g / bc_offset_increment g).

(** ** Classification of a slot by its magic field (lines 144-156) *)

Inductive slot_class := Corrupt | Erased | Written.

Definition classify (magic : Z) : slot_class :=
  if negb (magic =? BOOTCOUNT_MAGIC) && negb (magic =? 0xffffffff)
  then Corrupt
  else if magic =? 0xffffffff then Erased
  else Written.

(** ** Environment and trace *)

(** What the run depends on besides the code: the host (byte order, width
    of [size_t]), the device behind [fd] (geometry, flash contents, result
    of an erase or write request) and the allocator.  [memerase] and
    [pwrite_ret] give the value the code stores in [int ret]; a
    non-negative [pwrite_ret] is the number of bytes transferred.  pread
    on the open device is taken to succeed (the code ignores its result). *)
Record environment := {
  big_endian : bool;
  size_t_bits : Z;
  getinfo_ok : bool;
  mtd_info : mtd_info_user;
  flash : mem;
  malloc_ok : bool;
  heap : mem;
  junk_nonnull : bool;
  memerase : Z -> Z -> Z;
  pwrite_ret : Z -> Z -> Z
}.

(** The messages of DLOG_ERR and DLOG_NOTICE (DLOG_DEBUG expands to
    nothing). *)
Inductive dlog :=
| ErrNoMtdInfo
| ErrNoMemory (n : Z)
| ErrUnexpectedMagic (magic off : Z)
| NoticeLogFull (i : Z)
| ErrEraseFailed (ret : Z)
| ErrWriteFailed
| NoticeResetDone.

Inductive event :=
| EvGetInfo (ok : bool)
| EvMalloc (n : Z) (ok : bool)
| EvPread (off len : Z)
| EvErase (start len ret : Z)
| EvPwrite (off : Z) (data : list byte) (ret : Z)
| EvSync
| EvReadIndeterminate
| EvFree
| EvFreeIndeterminate
| EvClose
| EvLog (m : dlog).

(** The value of the local [char *page] (line 82 declares it without an
    initialiser). *)
Inductive pointer := Indeterminate | Null | Block.

Record outcome := {
  retval : Z;
  flash_after : mem;
  trace : list event
}.

(** Label [out] (lines 226-231).  Testing an indeterminate [page] is
    recorded; which way the test goes is then up to the environment. *)
Definition cleanup (e : environment) (page : pointer) (rv : Z) (fl : mem)
    (tr : list event) : outcome :=
  let tr' :=
    match page with
    | Indeterminate =>
        tr ++ EvReadIndeterminate
           :: (if junk_nonnull e then [EvFreeIndeterminate] else [])
    | Null => tr
    | Block => tr ++ [EvFree]
    end in
  {| retval := rv; flash_after := fl; trace := tr' ++ [EvClose] |}.

(** ** The scan loop (lines 133-157) *)

Record scan_state := {
  st_i : Z;
  buf : mem;
  page_len : Z;
  erase_start : Z;
  curr : option Z;
  last_count : Z
}.

Inductive loop_exit := LoopEnd | LoopBreak | LoopCorrupt.

Section Scan.
Variable e : environment.


(** Lines 135-140: [curr] is set to the buffer position [page_len],
    slot [i] is read there, and the fill level advances; when the buffer
    is full it restarts at 0 and [erase_start] moves one erase unit on. *)
Definition read_slot (st : scan_state) : scan_state :=
  let c := u32 (page_len st * bc_offset_increment (mtd_info e)) in
  let off := u32 (st_i st * bc_offset_increment (mtd_info e)) in
  let pl1 := s32 (page_len st + 1) in
  let wrap := page_num_bc (mtd_info e) <=? pl1 in
  {| st_i := st_i st;
     buf := store_bytes (buf st) c
              (load_bytes (flash e) off sizeof_bootcounter);
     page_len := if wrap then 0 else pl1;
     erase_start :=
       if wrap
       then to_size_t (size_t_bits e)
              (erase_start st + erase_size (mtd_info e))
       else erase_start st;
     curr := Some c;
     last_count := last_count st |}.

(** Line 156 and the loop increment. *)
Definition next_slot (st : scan_state) (count : Z) : scan_state :=
  {| st_i := u32 (st_i st + 1); buf := buf st; page_len := page_len st;
     erase_start := erase_start st; curr := curr st;
     last_count := s32 count |}.

(** [fuel] bounds the iterations left; the loop test is the code's. *)
Fixpoint scan (fuel : nat) (st : scan_state) (tr : list event)
    : loop_exit * scan_state * list event :=
  match fuel with
  | O => (LoopEnd, st, tr)
  | S fuel' =>
    if st_i st <? u32 (num_bc (mtd_info e)) then
      let c := u32 (page_len st * bc_offset_increment (mtd_info e)) in
      let off := u32 (st_i st * bc_offset_increment (mtd_info e)) in
      let st1 := read_slot st in
      let tr1 := tr ++ [EvPread off sizeof_bootcounter] in
      let magic := load_u32 (big_endian e) (buf st1) (c + off_magic) in
      match classify magic with
      | Corrupt =>
          (LoopCorrupt, st1, tr1 ++ [EvLog (ErrUnexpectedMagic magic off)])
      | Erased => (LoopBreak, st1, tr1)
      | Written =>
          scan fuel'
            (next_slot st1
               (load_u32 (big_endian e) (buf st1) (c + off_count)))
            tr1
      end
    else (LoopEnd, st, tr)
  end.

(** Lines 202-206: the slot at [c] becomes a zero record, padded with
    0xff. *)
Definition zero_record_at (b : mem) (c : Z) : mem :=
  let b1 := fill_bytes b c (bc_offset_increment (mtd_info e)) xff in
  let b2 := store_u32 (big_endian e) b1 (c + off_magic) BOOTCOUNT_MAGIC in
  let b3 := store_u32 (big_endian e) b2 (c + off_count) 0 in
  store_u32 (big_endian e) b3 (c + off_checksum) BOOTCOUNT_MAGIC.

(** Lines 202-224: build the zero record at [curr] and write the
    buffered slots back. *)
Definition write_back (fl : mem) (st : scan_state) (tr : list event)
    : outcome :=
  let '(c, tr) :=
    match curr st with
    | Some c => (c, tr)
    | None => (0, tr ++ [EvReadIndeterminate])
    end in
  let page := zero_record_at (buf st) c in
  let len := u32 (page_len st * bc_offset_increment (mtd_info e)) in
  let data := load_bytes page 0 len in
  let ret := pwrite_ret e (erase_start st) len in
  let tr1 := tr ++ [EvPwrite (erase_start st) data ret] in
  if ret <? 0 then
    cleanup e Block (-6) fl (tr1 ++ [EvLog ErrWriteFailed])
  else
    cleanup e Block 0
      (store_bytes fl (erase_start st) (firstn (Z.to_nat ret) data))
      (tr1 ++ [EvSync; EvLog NoticeResetDone]).

Definition scan_init : scan_state :=
  {| st_i := 0; buf := heap e; page_len := 0; erase_start := 0;
     curr := None; last_count := 0 |}.

(** Lines 144-151 (the exit with -3) and 160-224. *)
Definition reset_after_scan (ex : loop_exit) (st : scan_state)
    (tr2 : list event) : outcome :=
  match ex with
  | LoopCorrupt => cleanup e Block (-3) (flash e) tr2
  | _ =>
    if last_count st =? 0 then cleanup e Block 0 (flash e) tr2
    else if st_i st =? u32 (num_bc (mtd_info e)) then
      let tr3 := tr2 ++ [EvLog (NoticeLogFull (st_i st))] in
      let ret := memerase e 0 (size (mtd_info e)) in
      let tr4 := tr3 ++ [EvErase 0 (size (mtd_info e)) ret] in
      if ret <? 0 then
        cleanup e Block (-4) (flash e)
          (tr4 ++ [EvLog (ErrEraseFailed ret)])
      else
        write_back (fill_bytes (flash e) 0 (size (mtd_info e)) xff)
          {| st_i := 0; buf := buf st; page_len := 1;
             erase_start := 0; curr := Some 0;
             last_count := last_count st |}
          tr4
    else
      let start := u32 (erase_start st) in
      let len := u32 (erase_size (mtd_info e)) in
      let ret := memerase e start len in
      let tr3 := tr2 ++ [EvErase start len ret] in
      if ret <? 0 then
        cleanup e Block (-5) (flash e)
          (tr3 ++ [EvLog (ErrEraseFailed ret)])
      else
        write_back (fill_bytes (flash e) start len xff) st tr3
  end.

Definition mtd_resetbc : outcome :=
  let tr0 := [EvGetInfo (getinfo_ok e)] in
  if negb (getinfo_ok e) then
    cleanup e Indeterminate (-1) (flash e) (tr0 ++ [EvLog ErrNoMtdInfo])
  else
    let tr1 :=
      tr0 ++ [EvMalloc (to_size_t (size_t_bits e) (erase_size (mtd_info e)))
                       (malloc_ok e)] in
    if negb (malloc_ok e) then
      cleanup e Null (-2) (flash e)
        (tr1 ++ [EvLog (ErrNoMemory (erase_size (mtd_info e)))])
    else
      let '(ex, st, tr2) :=
        scan (Z.to_nat (u32 (num_bc (mtd_info e)))) scan_init tr1 in
      reset_after_scan ex st tr2.
End Scan.

(** ** Vocabulary of the properties *)

(** The fields of slot [j] as they are on the device. *)
Definition slot_magic (e : environment) (j : Z) : Z :=
  load_u32 (big_endian e) (flash e)
    (j * bc_offset_increment (mtd_info e) + off_magic).

Definition slot_count (e : environment) (j : Z) : Z :=
  load_u32 (big_endian e) (flash e)
    (j * bc_offset_increment (mtd_info e) + off_count).

(** The whole slot holds the erased-fill pattern: every one of its
    [bc_offset_increment] bytes is 0xff. *)
Definition slot_erased_fill (e : environment) (j : Z) : bool :=
  forallb (fun b => Byte.eqb b xff)
    (load_bytes (flash e) (j * bc_offset_increment (mtd_info e))
       (bc_offset_increment (mtd_info e))).

(** Calls that change the flash. *)
Definition is_mutation (ev : event) : bool :=
  match ev with
  | EvErase _ _ _ | EvPwrite _ _ _ => true
  | _ => false
  end.

Definition mutations (tr : list event) : list event := filter is_mutation tr.

(** The reads of slots [0 .. n-1] of a log with record distance [d]. *)
Definition pread_events (d : Z) (n : nat) : list event :=
  map (fun j => EvPread (Z.of_nat j * d) sizeof_bootcounter) (seq 0 n).

(** The same host and device with other flash contents. *)
Definition with_flash (e : environment) (fl : mem) : environment :=
  {| big_endian := big_endian e; size_t_bits := size_t_bits e;
     getinfo_ok := getinfo_ok e; mtd_info := mtd_info e; flash := fl;
     malloc_ok := malloc_ok e; heap := heap e;
     junk_nonnull := junk_nonnull e; memerase := memerase e;
     pwrite_ret := pwrite_ret e |}.

(** A device that answers the geometry query, with memory available. *)
Definition ready (e : environment) : Prop :=
  getinfo_ok e = true /\ malloc_ok e = true /\ wf_info (mtd_info e).

(** Slots [0 .. k-1] hold written records. *)
Definition written_upto (e : environment) (k : Z) : Prop :=
  forall j, 0 <= j < k -> slot_magic e j = BOOTCOUNT_MAGIC.

(** The buffer [b] holds, at its positions [0 .. n-1], the records of the
    device slots [base .. base+n-1]. *)
Definition buf_holds (e : environment) (b : mem) (base n : Z) : Prop :=
  forall t d, 0 <= t < n -> 0 <= d < sizeof_bootcounter ->
    b (t * bc_offset_increment (mtd_info e) + d)
    = flash e ((base + t) * bc_offset_increment (mtd_info e) + d).

(** The value of [last_count] once slots [0 .. k-1] were seen written. *)
Definition count_before (e : environment) (k : Z) : Z :=
  if k =? 0 then 0 else s32 (slot_count e (k - 1)).

(** The loop state at the head of iteration [k], after [k] written slots;
    [tr0] is the trace before the loop. *)
Definition at_head (e : environment) (tr0 : list event) (k : Z)
    (st : scan_state) (tr : list event) : Prop :=
  let P := page_num_bc (mtd_info e) in
  st_i st = k
  /\ page_len st = k mod P
  /\ erase_start st
     = to_size_t (size_t_bits e) (k / P * erase_size (mtd_info e))
  /\ curr st
     = (if k =? 0 then None
        else Some ((k - 1) mod P * bc_offset_increment (mtd_info e)))
  /\ last_count st = count_before e k
  /\ tr = tr0 ++ pread_events (bc_offset_increment (mtd_info e)) (Z.to_nat k)
  /\ buf_holds e (buf st) (k / P * P) (k mod P).

(** The loop state in iteration [m] once slot [m] has been read (line
    141), after [m] written slots. *)
Definition after_read (e : environment) (tr0 : list event) (m : Z)
    (st : scan_state) (tr : list event) : Prop :=
  let P := page_num_bc (mtd_info e) in
  st_i st = m
  /\ page_len st = (m + 1) mod P
  /\ erase_start st
     = to_size_t (size_t_bits e) ((m + 1) / P * erase_size (mtd_info e))
  /\ curr st = Some (m mod P * bc_offset_increment (mtd_info e))
  /\ last_count st = count_before e m
  /\ tr = tr0
          ++ pread_events (bc_offset_increment (mtd_info e)) (Z.to_nat (m + 1))
  /\ buf_holds e (buf st) (m / P * P) (m mod P + 1).

(** [m] is the number of leading written slots of the log. *)
Definition leading_written (e : environment) (m : Z) : Prop :=
  0 <= m <= num_bc (mtd_info e)
  /\ written_upto e m
  /\ (m < num_bc (mtd_info e) -> slot_magic e m <> BOOTCOUNT_MAGIC).

(** How the loop is left when [m] slots lead the log: at the first slot
    that is not a written record, or past the last slot. *)
Definition scan_exit (e : environment) (m : Z) : loop_exit :=
  if m <? num_bc (mtd_info e) then
    match classify (slot_magic e m) with
    | Corrupt => LoopCorrupt
    | _ => LoopBreak
    end
  else LoopEnd.

Definition scan_log (e : environment) (m : Z) : list event :=
  match classify (slot_magic e m) with
  | Corrupt =>
      [EvLog (ErrUnexpectedMagic (slot_magic e m)
                (m * bc_offset_increment (mtd_info e)))]
  | _ => []
  end.

Definition scan_post (e : environment) (tr0 : list event) (m : Z)
    (st : scan_state) (tr : list event) : Prop :=
  if m <? num_bc (mtd_info e)
  then exists tr1, after_read e tr0 m st tr1 /\ tr = tr1 ++ scan_log e m
  else at_head e tr0 m st tr.

(** The bytes of the record written by a reset, and of its whole slot. *)
Definition zero_record (be : bool) : list byte :=
  bytes_of_u32 be BOOTCOUNT_MAGIC ++ bytes_of_u32 be 0
  ++ bytes_of_u32 be BOOTCOUNT_MAGIC.

Definition zero_slot (be : bool) (d : Z) : list byte :=
  zero_record be ++ repeat xff (Z.to_nat (d - sizeof_bootcounter)).

Definition is_pread (ev : event) : bool :=
  match ev with
  | EvPread _ _ => true
  | _ => false
  end.

(** Every slot is a written record or holds the erased-fill pattern. *)
Definition valid_log (e : environment) : Prop :=
  forall j, 0 <= j < num_bc (mtd_info e) ->
    slot_magic e j = BOOTCOUNT_MAGIC \/ slot_erased_fill e j = true.

(** The trace when the loop is entered. *)
Definition trace_before_scan (e : environment) : list event :=
  [EvGetInfo true;
   EvMalloc (to_size_t (size_t_bits e) (erase_size (mtd_info e))) true].

(** The failures a trace shows. *)
Definition getinfo_failed (ev : event) : bool :=
  match ev with
  | EvGetInfo ok => negb ok
  | _ => false
  end.

Definition malloc_failed (ev : event) : bool :=
  match ev with
  | EvMalloc _ ok => negb ok
  | _ => false
  end.

Definition magic_reported (ev : event) : bool :=
  match ev with
  | EvLog (ErrUnexpectedMagic _ _) => true
  | _ => false
  end.

Definition erase_failed (ev : event) : bool :=
  match ev with
  | EvErase _ _ ret => ret <? 0
  | _ => false
  end.

Definition log_full_noticed (ev : event) : bool :=
  match ev with
  | EvLog (NoticeLogFull _) => true
  | _ => false
  end.

Definition write_failed (ev : event) : bool :=
  match ev with
  | EvPwrite _ _ ret => ret <? 0
  | _ => false
  end.

Definition is_pwrite (ev : event) : bool :=
  match ev with
  | EvPwrite _ _ _ => true
  | _ => false
  end.

(** How a run ends after its write request returned [ret]. *)
Definition after_pwrite (ret : Z) : list event :=
  (if ret <? 0 then [EvLog ErrWriteFailed]
   else [EvSync; EvLog NoticeResetDone])
  ++ [EvFree; EvClose].

Definition is_indeterminate_use (ev : event) : bool :=
  match ev with
  | EvReadIndeterminate | EvFreeIndeterminate => true
  | _ => false
  end.

Definition is_free (ev : event) : bool :=
  match ev with
  | EvFree => true
  | _ => false
  end.


Definition is_erase (ev : event) : bool :=
  match ev with
  | EvErase _ _ _ => true
  | _ => false
  end.








(** ** Sample devices *)

(** A slot of 16 bytes on a little-endian host: a record with the given
    low count byte, then padding. *)
Definition sample_record (c : byte) (pad : byte) : list byte :=
  [x11; x08; x11; x20; c; x00; x00; x00; x11; x08; x11; x20;
   pad; pad; pad; pad].

Definition sample_env (sz esz : Z) (image : list byte) : environment :=
  {| big_endian := false; size_t_bits := 32; getinfo_ok := true;
     mtd_info := {| size := sz; erasesize := esz; writesize := 1 |};
     flash := mem_of_list image xff;
     malloc_ok := true; heap := fun _ => x00; junk_nonnull := true;
     memerase := fun _ _ => 0; pwrite_ret := fun _ n => n |}.

(** Two blocks of two slots; slot 0 written (count 5), the first free slot
    is slot 1, the last slot of block 0. *)
Definition env_last_slot_free : environment :=
  sample_env 64 32 (sample_record x05 xff).

(** Two blocks of four slots; slots 0 and 1 written (counts 5 and 6). *)
Definition env_two_records : environment :=
  sample_env 128 64 (sample_record x05 xff ++ sample_record x06 xff).

(** One block of four slots, every slot written; the last count is 4. *)
Definition env_full : environment :=
  sample_env 64 64
    (sample_record x01 xff ++ sample_record x02 xff
     ++ sample_record x03 xff ++ sample_record x04 xff).

(** Slot 0 written with count 0, the rest erased. *)
Definition env_already_zero : environment :=
  sample_env 64 32 (sample_record x00 xff).

(** Slot 0 written, slot 1 with a foreign magic. *)
Definition env_corrupt : environment :=
  sample_env 64 32
    (sample_record x05 xff
     ++ [x01; x02; x03; x04; x00; x00; x00; x00; x00; x00; x00; x00]).

(** Slot 0 has magic 0xffffffff but a count field of 7. *)
Definition env_ff_magic_only : environment :=
  sample_env 64 32
    [xff; xff; xff; xff; x07; x00; x00; x00; xff; xff; xff; xff].

(** The geometry query fails. *)
Definition env_no_geometry : environment :=
  {| big_endian := false; size_t_bits := 32; getinfo_ok := false;
     mtd_info := {| size := 0; erasesize := 0; writesize := 0 |};
     flash := fun _ => xff;
     malloc_ok := true; heap := fun _ => x00; junk_nonnull := true;
     memerase := fun _ _ => 0; pwrite_ret := fun _ n => n |}.

(** As [env_two_records], with a device that accepts only 20 of the bytes
    of a write. *)
Definition env_short_write : environment :=
  {| big_endian := false; size_t_bits := 32; getinfo_ok := true;
     mtd_info := {| size := 128; erasesize := 64; writesize := 1 |};
     flash := mem_of_list (sample_record x05 xff ++ sample_record x06 xff) xff;
     malloc_ok := true; heap := fun _ => x00; junk_nonnull := true;
     memerase := fun _ _ => 0; pwrite_ret := fun _ _ => 20 |}.

(** As [env_last_slot_free], with a device that reports a write of zero
    bytes as such. *)
Definition env_block_end : environment :=
  {| big_endian := false; size_t_bits := 32; getinfo_ok := true;
     mtd_info := {| size := 64; erasesize := 32; writesize := 1 |};
     flash := mem_of_list (sample_record x05 xff) xff;
     malloc_ok := true; heap := fun _ => x00; junk_nonnull := true;
     memerase := fun _ _ => 0; pwrite_ret := fun _ n => Z.max 0 n |}.

(** The allocation fails. *)
Definition env_no_memory : environment :=
  {| big_endian := false; size_t_bits := 32; getinfo_ok := true;
     mtd_info := {| size := 64; erasesize := 32; writesize := 1 |};
     flash := mem_of_list (sample_record x05 xff) xff;
     malloc_ok := false; heap := fun _ => x00; junk_nonnull := true;
     memerase := fun _ _ => 0; pwrite_ret := fun _ n => n |}.

(** Two blocks of four slots: slot 0 written (count 5), slot 1 with the
    magic 0xffffffff and a count field of 7, slot 2 with a foreign magic,
    slot 3 the first slot that holds the erased-fill pattern. *)
Definition env_magic_only_then_corrupt : environment :=
  sample_env 128 64
    (sample_record x05 xff
     ++ [xff; xff; xff; xff; x07; x00; x00; x00; xff; xff; xff; xff;
         xff; xff; xff; xff]
     ++ [x01; x02; x03; x04; x00; x00; x00; x00; x00; x00; x00; x00]).




(** * Properties *)

(** ** Machine integers and bytes *)

Lemma u32_small x : 0 <= x < 2 ^ 32 -> u32 x = x.
Proof. intros H. unfold u32. apply Z.mod_small. exact H. Qed.

Lemma s32_small x : - 2 ^ 31 <= x < 2 ^ 31 -> s32 x = x.
Proof.
  intros H. unfold s32. rewrite Z.mod_small; lia.
Qed.

Lemma u32_s32 x : u32 (s32 x) = u32 x.
Proof.
  unfold u32, s32.
  rewrite Zminus_mod_idemp_l.
  f_equal. lia.
Qed.

Lemma u32_range x : 0 <= u32 x < 2 ^ 32.
Proof. unfold u32. apply Z.mod_pos_bound. lia. Qed.

Lemma byte_val_range b : 0 <= byte_val b < 256.
Proof.
  unfold byte_val. pose proof (Byte.to_N_bounded b). lia.
Qed.

Lemma byte_val_inj a b : byte_val a = byte_val b -> a = b.
Proof.
  unfold byte_val. intros H. apply N2Z.inj in H.
  assert (Some a = Some b) as E.
  { rewrite <- (Byte.of_to_N a), <- (Byte.of_to_N b). now rewrite H. }
  now inversion E.
Qed.

Lemma word_of_bytes_range a b c d : 0 <= word_of_bytes a b c d < 2 ^ 32.
Proof.
  unfold word_of_bytes.
  pose proof (byte_val_range a). pose proof (byte_val_range b).
  pose proof (byte_val_range c). pose proof (byte_val_range d).
  lia.
Qed.

Lemma load_u32_range be m off : 0 <= load_u32 be m off < 2 ^ 32.
Proof. unfold load_u32. destruct be; apply word_of_bytes_range. Qed.

(** A word read depends on the four bytes it covers only. *)
Lemma load_u32_ext be m m' off off' :
  (forall b, 0 <= b < 4 -> m (off + b) = m' (off' + b)) ->
  load_u32 be m off = load_u32 be m' off'.
Proof.
  intros H. unfold load_u32.
  assert (m off = m' off') as H0.
  { specialize (H 0). rewrite !Z.add_0_r in H. apply H. lia. }
  rewrite (H 1), (H 2), (H 3), H0 by lia. reflexivity.
Qed.

(** ** Record layout *)

Section Layout.
Variable g : mtd_info_user.
Hypothesis wf : wf_info g.

Lemma increment_max : bc_offset_increment g = Z.max (writesize g) 16.
Proof.
  unfold bc_offset_increment, BC_OFFSET_INCREMENT_MIN.
  destruct (Z.ltb_spec (writesize g) 16); lia.
Qed.

Lemma increment_range : 16 <= bc_offset_increment g < 2 ^ 32.
Proof. rewrite increment_max. destruct wf as (_ & _ & ?). lia. Qed.

Lemma erase_size_unsigned :
  u32 (erase_size g) = Z.max (erasesize g) (bc_offset_increment g).
Proof.
  pose proof increment_range as Hi. destruct wf as (_ & He & _).
  unfold erase_size.
  destruct (Z.ltb_spec (erasesize g) (bc_offset_increment g));
    rewrite u32_s32, u32_small; lia.
Qed.

Lemma erase_size_unsigned_range :
  bc_offset_increment g <= u32 (erase_size g) < 2 ^ 32.
Proof.
  rewrite erase_size_unsigned.
  pose proof increment_range. destruct wf as (_ & ? & _). lia.
Qed.

Lemma erase_size_signed :
  erasesize g < 2 ^ 31 -> writesize g < 2 ^ 31 ->
  erase_size g = Z.max (erasesize g) (bc_offset_increment g).
Proof.
  intros He Hw. pose proof increment_max as Hm.
  destruct wf as (_ & He' & Hw').
  unfold erase_size.
  destruct (Z.ltb_spec (erasesize g) (bc_offset_increment g));
    rewrite s32_small; lia.
Qed.

Lemma page_num_bc_div :
  page_num_bc g = u32 (erase_size g) / bc_offset_increment g.
Proof.
  pose proof increment_range as Hi.
  pose proof erase_size_unsigned_range as He.
  unfold page_num_bc. apply s32_small.
  assert (0 <= u32 (erase_size g) / bc_offset_increment g).
  { apply Z.div_pos; lia. }
  assert (u32 (erase_size g) / bc_offset_increment g < 2 ^ 28).
  { apply Z.div_lt_upper_bound; lia. }
  lia.
Qed.

Lemma page_num_bc_range : 1 <= page_num_bc g < 2 ^ 28.
Proof.
  pose proof increment_range as Hi.
  pose proof erase_size_unsigned_range as He.
  rewrite page_num_bc_div. split.
  - apply Z.div_le_lower_bound; lia.
  - apply Z.div_lt_upper_bound; lia.
Qed.

(** The slots of one buffer fit in the allocated block. *)
Lemma page_fits :
  page_num_bc g * bc_offset_increment g <= u32 (erase_size g).
Proof.
  pose proof increment_range as Hi.
  rewrite page_num_bc_div, Z.mul_comm.
  apply Z.mul_div_le. lia.
Qed.

Lemma num_bc_div : num_bc g = size g / bc_offset_increment g.
Proof.
  pose proof increment_range as Hi. destruct wf as (Hs & _ & _).
  unfold num_bc. apply s32_small.
  assert (0 <= size g / bc_offset_increment g).
  { apply Z.div_pos; lia. }
  assert (size g / bc_offset_increment g < 2 ^ 28).
  { apply Z.div_lt_upper_bound; lia. }
  lia.
Qed.

Lemma num_bc_range : 0 <= num_bc g < 2 ^ 28.
Proof.
  pose proof increment_range as Hi. destruct wf as (Hs & _ & _).
  rewrite num_bc_div. split.
  - apply Z.div_pos; lia.
  - apply Z.div_lt_upper_bound; lia.
Qed.

Lemma num_bc_unsigned : u32 (num_bc g) = num_bc g.
Proof. pose proof num_bc_range. apply u32_small. lia. Qed.

(** Every slot lies inside the device. *)
Lemma slots_fit : num_bc g * bc_offset_increment g <= size g.
Proof.
  pose proof increment_range as Hi.
  rewrite num_bc_div, Z.mul_comm.
  apply Z.mul_div_le. lia.
Qed.
End Layout.

(** C5: the layout derived from the device geometry.  The record distance
    is max(writesize, 16); the erase unit, as the unsigned quantity passed
    to the erase request, is max(erasesize, distance), and the [int]
    variable holding it has that value whenever the geometry fits an
    [int]; the number of records per erase unit is their quotient.  A
    write size of 8 gives a record distance of 16. *)
Theorem layout_from_geometry (g : mtd_info_user) :
  wf_info g ->
  bc_offset_increment g = Z.max (writesize g) 16
  /\ u32 (erase_size g) = Z.max (erasesize g) (bc_offset_increment g)
  /\ (erasesize g < 2 ^ 31 -> writesize g < 2 ^ 31 ->
      erase_size g = Z.max (erasesize g) (bc_offset_increment g))
  /\ page_num_bc g
     = Z.max (erasesize g) (bc_offset_increment g) / bc_offset_increment g
  /\ (writesize g = 8 -> bc_offset_increment g = 16).
Proof.
  intros wf. split; [|split; [|split; [|split]]].
  - apply increment_max.
  - apply erase_size_unsigned. exact wf.
  - apply erase_size_signed. exact wf.
  - rewrite page_num_bc_div, erase_size_unsigned by exact wf. reflexivity.
  - intros H. rewrite increment_max. lia.
Qed.

Lemma layout_from_geometry_witness :
  let g := {| size := 65536; erasesize := 4096; writesize := 8 |} in
  bc_offset_increment g = 16 /\ erase_size g = 4096 /\ page_num_bc g = 256.
Proof.
  intros g.
  assert (wf_info g) as wf by (unfold wf_info; simpl; lia).
  destruct (layout_from_geometry g wf) as (H1 & _ & H3 & H4 & H5).
  assert (bc_offset_increment g = 16) as Hi by (apply H5; reflexivity).
  split; [exact Hi|]. split.
  - rewrite H3 by (simpl; lia). rewrite Hi. reflexivity.
  - rewrite H4, Hi. reflexivity.
Defined.

(** ** Memory *)

Lemma load_bytes_length m off len :
  length (load_bytes m off len) = Z.to_nat len.
Proof. unfold load_bytes. now rewrite length_map, length_seq. Qed.

Lemma nth_load_bytes m off len k d :
  (k < Z.to_nat len)%nat ->
  nth k (load_bytes m off len) d = m (off + Z.of_nat k).
Proof.
  intros Hk. unfold load_bytes.
  rewrite (nth_indep _ d (m (off + Z.of_nat 0)))
    by (now rewrite length_map, length_seq).
  rewrite (map_nth (fun k => m (off + Z.of_nat k))).
  rewrite seq_nth by exact Hk. reflexivity.
Qed.

Lemma store_bytes_inside m off bs a :
  off <= a < off + Z.of_nat (length bs) ->
  store_bytes m off bs a = nth (Z.to_nat (a - off)) bs x00.
Proof.
  intros H. unfold store_bytes.
  destruct (Z.leb_spec off a); [|lia].
  destruct (Z.ltb_spec a (off + Z.of_nat (length bs))); [|lia].
  reflexivity.
Qed.

Lemma store_bytes_outside m off bs a :
  a < off \/ off + Z.of_nat (length bs) <= a ->
  store_bytes m off bs a = m a.
Proof.
  intros H. unfold store_bytes.
  destruct (Z.leb_spec off a); [|reflexivity].
  destruct (Z.ltb_spec a (off + Z.of_nat (length bs))); [lia|].
  reflexivity.
Qed.

(** Copying [len] bytes from [src] at [off] to position [c]. *)
Lemma store_load_inside m src off len c d :
  0 <= d < len ->
  store_bytes m c (load_bytes src off len) (c + d) = src (off + d).
Proof.
  intros H.
  rewrite store_bytes_inside by (rewrite load_bytes_length; lia).
  rewrite nth_load_bytes by lia.
  f_equal. lia.
Qed.

Lemma store_load_outside m src off len c a :
  0 <= len -> a < c \/ c + len <= a ->
  store_bytes m c (load_bytes src off len) a = m a.
Proof.
  intros Hl H. apply store_bytes_outside.
  rewrite load_bytes_length. lia.
Qed.

Lemma fill_bytes_inside m off len v a :
  off <= a < off + len -> fill_bytes m off len v a = v.
Proof.
  intros H. unfold fill_bytes.
  destruct (Z.leb_spec off a); [|lia].
  destruct (Z.ltb_spec a (off + len)); [|lia].
  reflexivity.
Qed.

Lemma fill_bytes_outside m off len v a :
  a < off \/ off + len <= a -> fill_bytes m off len v a = m a.
Proof.
  intros H. unfold fill_bytes.
  destruct (Z.leb_spec off a); [|reflexivity].
  destruct (Z.ltb_spec a (off + len)); [lia|].
  reflexivity.
Qed.

(** ** Position in the buffer *)

Lemma succ_mod_same k P :
  0 <= k -> 0 < P -> k mod P + 1 < P ->
  (k + 1) mod P = k mod P + 1 /\ (k + 1) / P = k / P.
Proof.
  intros Hk HP Hlt.
  pose proof (Z.mod_pos_bound k P HP) as Hr.
  pose proof (Z.div_mod k P ltac:(lia)) as Hd.
  assert (k + 1 = P * (k / P) + (k mod P + 1)) as E by lia.
  split.
  - symmetry. apply (Z.mod_unique _ _ (k / P)); [lia | exact E].
  - symmetry. apply (Z.div_unique _ _ _ (k mod P + 1)); [lia | exact E].
Qed.

Lemma succ_mod_wrap k P :
  0 <= k -> 0 < P -> P <= k mod P + 1 ->
  (k + 1) mod P = 0 /\ (k + 1) / P = k / P + 1.
Proof.
  intros Hk HP Hge.
  pose proof (Z.mod_pos_bound k P HP) as Hr.
  pose proof (Z.div_mod k P ltac:(lia)) as Hd.
  assert (k + 1 = P * (k / P + 1) + 0) as E by lia.
  split.
  - symmetry. apply (Z.mod_unique _ _ (k / P + 1)); [lia | exact E].
  - symmetry. apply (Z.div_unique _ _ _ 0); [lia | exact E].
Qed.

Lemma to_size_t_add bits a b :
  to_size_t bits (to_size_t bits a + b) = to_size_t bits (a + b).
Proof. unfold to_size_t. apply Zplus_mod_idemp_l. Qed.

Lemma pread_events_snoc d n :
  0 <= n ->
  pread_events d (Z.to_nat (n + 1))
  = pread_events d (Z.to_nat n) ++ [EvPread (n * d) sizeof_bootcounter].
Proof.
  intros Hn. unfold pread_events.
  replace (Z.to_nat (n + 1)) with (S (Z.to_nat n)) by lia.
  rewrite seq_S, map_app. simpl.
  now rewrite Z2Nat.id by lia.
Qed.

(** ** One iteration of the scan *)

Section ScanStep.
Variable e : environment.
Hypothesis wf : wf_info (mtd_info e).

Local Ltac layout_facts :=
  pose proof (increment_range _ wf) as Hinc;
  pose proof (page_num_bc_range _ wf) as HP;
  pose proof (page_fits _ wf) as Hfit;
  pose proof (erase_size_unsigned_range _ wf) as Hes;
  pose proof (num_bc_range _ wf) as Hn;
  pose proof (slots_fit _ wf) as Hslots;
  pose proof wf as (Hsz & _ & _).

Lemma at_head_start tr0 : at_head e tr0 0 (scan_init e) tr0.
Proof.
  layout_facts. unfold at_head, scan_init; simpl.
  rewrite ?Zmod_0_l, ?Zdiv_0_l.
  repeat split.
  - now rewrite app_nil_r.
  - intros t d Ht. lia.
Qed.

Lemma read_slot_step tr0 k st tr :
  at_head e tr0 k st tr ->
  0 <= k < num_bc (mtd_info e) ->
  u32 (page_len st * bc_offset_increment (mtd_info e))
  = k mod page_num_bc (mtd_info e) * bc_offset_increment (mtd_info e)
  /\ u32 (st_i st * bc_offset_increment (mtd_info e))
     = k * bc_offset_increment (mtd_info e)
  /\ after_read e tr0 k (read_slot e st)
       (tr ++ [EvPread (k * bc_offset_increment (mtd_info e))
                 sizeof_bootcounter]).
Proof.
  intros (Hi & Hpl & Hst & Hcurr & Hlc & Htr & Hbuf) Hk.
  layout_facts.
  set (P := page_num_bc (mtd_info e)) in *.
  set (inc := bc_offset_increment (mtd_info e)) in *.
  pose proof (Z.mod_pos_bound k P ltac:(lia)) as Hr.
  pose proof (Z.div_mod k P ltac:(lia)) as Hdm.
  assert (u32 (page_len st * inc) = k mod P * inc) as Hc.
  { rewrite Hpl. apply u32_small. nia. }
  assert (u32 (st_i st * inc) = k * inc) as Hoff.
  { rewrite Hi. apply u32_small. nia. }
  split; [exact Hc|]. split; [exact Hoff|].
  assert (s32 (page_len st + 1) = k mod P + 1) as Hpl1.
  { rewrite Hpl. apply s32_small. lia. }
  unfold after_read, read_slot. fold P inc. simpl.
  rewrite Hc, Hoff, Hpl1.
  split; [exact Hi|].
  destruct (Z.leb_spec P (k mod P + 1)) as [Hw|Hw].
  - destruct (succ_mod_wrap k P) as (Hm & Hd); try lia.
    rewrite Hm, Hd. repeat split.
    + rewrite Hst, to_size_t_add. f_equal. lia.
    + exact Hlc.
    + rewrite Htr, pread_events_snoc, app_assoc by lia. reflexivity.
    + intros t d Ht Hd0.
      destruct (Z.eq_dec t (k mod P)) as [->|Hne].
      * rewrite store_load_inside by exact Hd0. f_equal. lia.
      * rewrite store_load_outside
          by (unfold sizeof_bootcounter in *; nia).
        apply Hbuf; lia.
  - destruct (succ_mod_same k P) as (Hm & Hd); try lia.
    rewrite Hm, Hd. repeat split.
    + exact Hst.
    + exact Hlc.
    + rewrite Htr, pread_events_snoc, app_assoc by lia. reflexivity.
    + intros t d Ht Hd0.
      destruct (Z.eq_dec t (k mod P)) as [->|Hne].
      * rewrite store_load_inside by exact Hd0. f_equal. lia.
      * rewrite store_load_outside
          by (unfold sizeof_bootcounter in *; nia).
        apply Hbuf; lia.
Qed.

(** What the code reads through [curr] is what the device holds. *)
Lemma after_read_fields tr0 m st tr :
  after_read e tr0 m st tr -> 0 <= m ->
  load_u32 (big_endian e) (buf st)
    (m mod page_num_bc (mtd_info e) * bc_offset_increment (mtd_info e)
     + off_magic) = slot_magic e m
  /\ load_u32 (big_endian e) (buf st)
       (m mod page_num_bc (mtd_info e) * bc_offset_increment (mtd_info e)
        + off_count) = slot_count e m.
Proof.
  intros (_ & _ & _ & _ & _ & _ & Hbuf) Hm.
  layout_facts.
  set (P := page_num_bc (mtd_info e)) in *.
  set (inc := bc_offset_increment (mtd_info e)) in *.
  pose proof (Z.mod_pos_bound m P ltac:(lia)) as Hr.
  pose proof (Z.div_mod m P ltac:(lia)) as Hdm.
  assert (m / P * P + m mod P = m) as Hsum by lia.
  unfold slot_magic, slot_count. fold inc.
  split; apply load_u32_ext; intros b Hb;
    rewrite <- !Z.add_assoc;
    (rewrite Hbuf by (unfold sizeof_bootcounter, off_magic, off_count; lia));
    rewrite Hsum; reflexivity.
Qed.

Lemma next_slot_step tr0 k st tr :
  after_read e tr0 k st tr ->
  0 <= k < num_bc (mtd_info e) ->
  at_head e tr0 (k + 1) (next_slot st (slot_count e k)) tr.
Proof.
  intros (Hi & Hpl & Hst & Hcurr & Hlc & Htr & Hbuf) Hk.
  layout_facts.
  set (P := page_num_bc (mtd_info e)) in *.
  pose proof (Z.mod_pos_bound k P ltac:(lia)) as Hr.
  unfold at_head, next_slot. fold P. simpl.
  destruct (Z.eqb_spec (k + 1) 0) as [?|_]; [lia|].
  replace (k + 1 - 1) with k by lia.
  repeat split.
  - rewrite Hi. apply u32_small. lia.
  - exact Hpl.
  - exact Hst.
  - exact Hcurr.
  - unfold count_before.
    destruct (Z.eqb_spec (k + 1) 0) as [?|_]; [lia|].
    now replace (k + 1 - 1) with k by lia.
  - exact Htr.
  - destruct (Z.le_gt_cases P (k mod P + 1)) as [Hw|Hw].
    + destruct (succ_mod_wrap k P) as (Hm & Hd); try lia.
      rewrite Hm. intros t d Ht. lia.
    + destruct (succ_mod_same k P) as (Hm & Hd); try lia.
      rewrite Hm, Hd. exact Hbuf.
Qed.
End ScanStep.

(** ** The whole scan *)

Lemma classify_written magic :
  classify magic = Written <-> magic = BOOTCOUNT_MAGIC.
Proof.
  unfold classify, BOOTCOUNT_MAGIC.
  destruct (Z.eqb_spec magic 0x20110811), (Z.eqb_spec magic 0xffffffff);
    simpl; split; intros H; try discriminate; try lia; reflexivity.
Qed.

Lemma classify_erased magic :
  classify magic = Erased <-> magic = 0xffffffff.
Proof.
  unfold classify, BOOTCOUNT_MAGIC.
  destruct (Z.eqb_spec magic 0x20110811), (Z.eqb_spec magic 0xffffffff);
    simpl; split; intros H; try discriminate; try lia; reflexivity.
Qed.

Lemma classify_corrupt magic :
  classify magic = Corrupt
  <-> magic <> BOOTCOUNT_MAGIC /\ magic <> 0xffffffff.
Proof.
  unfold classify, BOOTCOUNT_MAGIC.
  destruct (Z.eqb_spec magic 0x20110811), (Z.eqb_spec magic 0xffffffff);
    simpl; split; intros H; try discriminate; try lia; reflexivity.
Qed.

Lemma scan_unfold e fuel st tr :
  scan e (S fuel) st tr
  = if st_i st <? u32 (num_bc (mtd_info e)) then
      let c := u32 (page_len st * bc_offset_increment (mtd_info e)) in
      let off := u32 (st_i st * bc_offset_increment (mtd_info e)) in
      let magic :=
        load_u32 (big_endian e) (buf (read_slot e st)) (c + off_magic) in
      match classify magic with
      | Corrupt =>
          (LoopCorrupt, read_slot e st,
           (tr ++ [EvPread off sizeof_bootcounter])
           ++ [EvLog (ErrUnexpectedMagic magic off)])
      | Erased =>
          (LoopBreak, read_slot e st, tr ++ [EvPread off sizeof_bootcounter])
      | Written =>
          scan e fuel
            (next_slot (read_slot e st)
               (load_u32 (big_endian e) (buf (read_slot e st))
                  (c + off_count)))
            (tr ++ [EvPread off sizeof_bootcounter])
      end
    else (LoopEnd, st, tr).
Proof. reflexivity. Qed.

Section ScanRun.
Variable e : environment.
Hypothesis wf : wf_info (mtd_info e).
Variable tr0 : list event.

Lemma scan_from_head (fuel : nat) : forall k st tr m,
  at_head e tr0 k st tr ->
  Z.of_nat fuel = num_bc (mtd_info e) - k ->
  0 <= k <= m -> m <= num_bc (mtd_info e) ->
  (forall j, k <= j < m -> slot_magic e j = BOOTCOUNT_MAGIC) ->
  (m < num_bc (mtd_info e) -> slot_magic e m <> BOOTCOUNT_MAGIC) ->
  exists st' tr',
    scan e fuel st tr = (scan_exit e m, st', tr')
    /\ scan_post e tr0 m st' tr'.
Proof.
  induction fuel as [|fuel IH]; intros k st tr m Hhead Hfuel Hk Hm Hw Hstop.
  - assert (m = num_bc (mtd_info e)) as -> by lia.
    assert (k = num_bc (mtd_info e)) as -> by lia.
    exists st, tr. simpl. unfold scan_exit, scan_post.
    rewrite Z.ltb_irrefl. auto.
  - assert (0 <= k < num_bc (mtd_info e)) as Hk' by lia.
    destruct (read_slot_step e wf tr0 k st tr Hhead Hk')
      as (Hc & Hoff & Hafter).
    destruct (after_read_fields e wf tr0 k _ _ Hafter ltac:(lia))
      as (Hmagic & Hcount).
    pose proof Hhead as (Hi & _).
    rewrite scan_unfold. cbv zeta.
    rewrite (num_bc_unsigned _ wf), Hc, Hoff, Hmagic, Hcount, Hi.
    destruct (Z.ltb_spec k (num_bc (mtd_info e))) as [_|?]; [|lia].
    destruct (Z.eq_dec k m) as [->|Hne].
    + (* the scan stops at this slot *)
      specialize (Hstop ltac:(lia)).
      unfold scan_exit, scan_post, scan_log.
      destruct (Z.ltb_spec m (num_bc (mtd_info e))) as [_|?]; [|lia].
      destruct (classify (slot_magic e m)) eqn:Hcl.
      * eexists _, _. split; [reflexivity|].
        eexists. split; [exact Hafter|reflexivity].
      * eexists _, _. split; [reflexivity|].
        eexists. split; [exact Hafter|]. now rewrite app_nil_r.
      * apply classify_written in Hcl. contradiction.
    + (* a written record: on to the next slot *)
      assert (classify (slot_magic e k) = Written) as ->.
      { apply classify_written, Hw. lia. }
      apply (IH (k + 1)); try lia.
      * apply next_slot_step; assumption.
      * intros j Hj. apply Hw. lia.
Qed.

(** Every log has a number of leading written slots. *)
Lemma leading_written_upto (n : nat) :
  Z.of_nat n <= num_bc (mtd_info e) ->
  (written_upto e (Z.of_nat n))
  \/ exists m, 0 <= m < Z.of_nat n /\ written_upto e m
               /\ slot_magic e m <> BOOTCOUNT_MAGIC.
Proof.
  induction n as [|n IH]; intros Hn.
  - left. intros j Hj. lia.
  - destruct IH as [Hall|(m & Hm & Hw & Hne)]; [lia| |].
    + destruct (Z.eq_dec (slot_magic e (Z.of_nat n)) BOOTCOUNT_MAGIC)
        as [Heq|Hne].
      * left. intros j Hj.
        destruct (Z.eq_dec j (Z.of_nat n)) as [->|?]; [exact Heq|].
        apply Hall. lia.
      * right. exists (Z.of_nat n). repeat split; try lia; assumption.
    + right. exists m. repeat split; try lia; assumption.
Qed.

Lemma leading_written_exists : exists m, leading_written e m.
Proof.
  pose proof (num_bc_range _ wf) as Hn.
  destruct (leading_written_upto (Z.to_nat (num_bc (mtd_info e))))
    as [Hall|(m & Hm & Hw & Hne)]; [lia| |].
  - rewrite Z2Nat.id in Hall by lia.
    exists (num_bc (mtd_info e)). repeat split; try lia; try assumption.
  - exists m. repeat split; try lia; assumption.
Qed.

(** The scan of a log with [m] leading written slots. *)
Lemma scan_result m :
  leading_written e m ->
  exists st' tr',
    scan e (Z.to_nat (u32 (num_bc (mtd_info e)))) (scan_init e) tr0
    = (scan_exit e m, st', tr')
    /\ scan_post e tr0 m st' tr'.
Proof.
  intros (Hm & Hw & Hstop).
  pose proof (num_bc_range _ wf) as Hn.
  rewrite (num_bc_unsigned _ wf).
  apply (scan_from_head _ 0);
    [apply at_head_start; exact wf | lia | lia | lia | | exact Hstop].
  intros j Hj. apply Hw. lia.
Qed.
End ScanRun.

(** ** The run on a device that answers *)

Lemma mutations_app tr tr' :
  mutations (tr ++ tr') = mutations tr ++ mutations tr'.
Proof. apply filter_app. Qed.

Lemma mutations_pread_events d n : mutations (pread_events d n) = [].
Proof.
  unfold pread_events, mutations.
  induction (seq 0 n) as [|j l IH]; simpl; auto.
Qed.

Lemma mutations_scan_log e m : mutations (scan_log e m) = [].
Proof. unfold scan_log. now destruct (classify (slot_magic e m)). Qed.

Lemma mutations_before_scan e : mutations (trace_before_scan e) = [].
Proof. reflexivity. Qed.

(** The scan issues no erase and no write. *)
Lemma scan_post_mutations e m st tr :
  scan_post e (trace_before_scan e) m st tr -> mutations tr = [].
Proof.
  unfold scan_post.
  destruct (m <? num_bc (mtd_info e)).
  - intros (tr1 & (_ & _ & _ & _ & _ & -> & _) & ->).
    now rewrite !mutations_app, mutations_pread_events, mutations_scan_log.
  - intros (_ & _ & _ & _ & _ & -> & _).
    now rewrite mutations_app, mutations_pread_events.
Qed.

Lemma scan_post_last_count e tr0 m st tr :
  scan_post e tr0 m st tr -> last_count st = count_before e m.
Proof.
  unfold scan_post.
  destruct (m <? num_bc (mtd_info e)).
  - now intros (tr1 & (_ & _ & _ & _ & H & _) & _).
  - now intros (_ & _ & _ & _ & H & _).
Qed.

Lemma scan_post_index e tr0 m st tr :
  scan_post e tr0 m st tr -> st_i st = m.
Proof.
  unfold scan_post.
  destruct (m <? num_bc (mtd_info e)).
  - now intros (tr1 & (H & _) & _).
  - now intros (H & _).
Qed.

Lemma mtd_resetbc_ready e m :
  ready e -> leading_written e m ->
  exists st tr2,
    scan_post e (trace_before_scan e) m st tr2
    /\ mtd_resetbc e = reset_after_scan e (scan_exit e m) st tr2.
Proof.
  intros (Hg & Ha & wf) Hm.
  destruct (scan_result e wf (trace_before_scan e) m Hm)
    as (st & tr2 & Hscan & Hpost).
  exists st, tr2. split; [exact Hpost|].
  unfold mtd_resetbc. rewrite Hg, Ha. simpl negb. cbv iota.
  change ([EvGetInfo true]
          ++ [EvMalloc (to_size_t (size_t_bits e) (erase_size (mtd_info e)))
                true])
    with (trace_before_scan e).
  cbv zeta. rewrite Hscan. reflexivity.
Qed.

Lemma cleanup_mutations e p rv fl tr :
  mutations (trace (cleanup e p rv fl tr)) = mutations tr.
Proof.
  unfold cleanup. simpl.
  destruct p; rewrite ?mutations_app; simpl.
  - destruct (junk_nonnull e); simpl; now rewrite !app_nil_r.
  - now rewrite app_nil_r.
  - now rewrite !app_nil_r.
Qed.

(** An erased-fill slot has the magic 0xffffffff. *)
Lemma erased_fill_magic e j :
  slot_erased_fill e j = true -> slot_magic e j = 0xffffffff.
Proof.
  unfold slot_erased_fill, slot_magic. intros H.
  rewrite forallb_forall in H.
  pose proof (increment_max (mtd_info e)) as Hinc.
  assert (forall b, 0 <= b < 4 ->
            flash e (j * bc_offset_increment (mtd_info e) + b) = xff) as Hb.
  { intros b Hb. apply Byte.byte_dec_bl, H.
    rewrite <- (Z2Nat.id b) by lia.
    rewrite <- (nth_load_bytes _ _ (bc_offset_increment (mtd_info e)) _ x00)
      by lia.
    apply nth_In. rewrite load_bytes_length. lia. }
  unfold load_u32, off_magic.
  rewrite Z.add_0_r.
  rewrite !Hb by lia.
  pose proof (Hb 0 ltac:(lia)) as H0. rewrite Z.add_0_r in H0. rewrite H0.
  now destruct (big_endian e).
Qed.

(** C2: on a valid log whose last written record has count 0, and on the
    empty log, the run returns 0, issues no erase and no write, and leaves
    the flash as it was. *)
Theorem already_zero_untouched (e : environment) (m : Z) :
  ready e -> valid_log e -> leading_written e m ->
  m = 0 \/ slot_count e (m - 1) = 0 ->
  retval (mtd_resetbc e) = 0
  /\ mutations (trace (mtd_resetbc e)) = []
  /\ flash_after (mtd_resetbc e) = flash e.
Proof.
  intros Hready Hvalid Hm Hzero.
  destruct (mtd_resetbc_ready e m Hready Hm) as (st & tr2 & Hpost & ->).
  assert (last_count st = 0) as Hlc.
  { rewrite (scan_post_last_count _ _ _ _ _ Hpost). unfold count_before.
    destruct (Z.eqb_spec m 0); [reflexivity|].
    destruct Hzero as [?| ->]; [lia|reflexivity]. }
  assert (scan_exit e m <> LoopCorrupt) as Hex.
  { unfold scan_exit. destruct Hm as (Hr & _ & Hstop).
    destruct (Z.ltb_spec m (num_bc (mtd_info e))); [|discriminate].
    destruct (Hvalid m ltac:(lia)) as [Hw|He].
    - now apply Hstop in Hw.
    - apply erased_fill_magic, classify_erased in He. now rewrite He. }
  unfold reset_after_scan. rewrite Hlc. simpl Z.eqb. cbv iota.
  destruct (scan_exit e m); try contradiction;
    rewrite cleanup_mutations, (scan_post_mutations _ _ _ _ Hpost); auto.
Qed.

(** Facts about the sample devices are settled by evaluation, slot by
    slot. *)
Ltac four_slots j H :=
  assert (j = 0 \/ j = 1 \/ j = 2 \/ j = 3) as Hcases by (clear - H; lia);
  destruct Hcases as [-> | [-> | [-> | ->]]].

Ltac sample_ready :=
  unfold ready, wf_info; simpl; repeat split; try reflexivity; lia.

Lemma already_zero_untouched_witness :
  retval (mtd_resetbc env_already_zero) = 0
  /\ mutations (trace (mtd_resetbc env_already_zero)) = []
  /\ flash_after (mtd_resetbc env_already_zero) = flash env_already_zero.
Proof.
  apply (already_zero_untouched env_already_zero 1).
  - sample_ready.
  - intros j Hj. change (num_bc (mtd_info env_already_zero)) with 4 in Hj.
    four_slots j Hj; vm_compute; auto.
  - split; [vm_compute; split; discriminate|]. split.
    + intros j Hj. assert (j = 0) as -> by lia. reflexivity.
    + intros _. vm_compute. discriminate.
  - right. reflexivity.
Defined.

(** C3 as stated fails: slot 2 of this device has a foreign magic and
    comes before the first slot that holds the erased-fill pattern, slot
    3.  Slot 1 has the magic 0xffffffff and a count field of 7; the scan
    stops there, so slot 2 is never read: the run returns 0, not -3,
    after erasing block 0 and writing slots 0 and 1 back, and the foreign
    magic of slot 2 is erased with the block. *)
Lemma corrupt_slot_not_reached :
  let e := env_magic_only_then_corrupt in
  let o := mtd_resetbc e in
  slot_magic e 2 <> BOOTCOUNT_MAGIC /\ slot_magic e 2 <> 0xffffffff
  /\ slot_erased_fill e 0 = false /\ slot_erased_fill e 1 = false
  /\ slot_erased_fill e 2 = false /\ slot_erased_fill e 3 = true
  /\ retval o = 0
  /\ filter is_pread (trace o) = [EvPread 0 12; EvPread 16 12]
  /\ mutations (trace o)
     = [EvErase 0 64 0;
        EvPwrite 0 (sample_record x05 x00 ++ zero_slot false 16) 32]
  /\ slot_magic (with_flash e (flash_after o)) 2 = 0xffffffff.
Proof.
  cbv zeta. repeat split; try reflexivity; vm_compute; discriminate.
Qed.

(** C3, amended: when a slot has a magic that is neither BOOTCOUNT_MAGIC
    nor 0xffffffff and no slot before it has the magic field 0xffffffff
    (the test by which the scan takes a slot for erased), the run returns
    -3, issues no erase and no write, and leaves the flash as it was. *)
Theorem corrupt_magic_untouched (e : environment) (j : Z) :
  ready e ->
  0 <= j < num_bc (mtd_info e) ->
  slot_magic e j <> BOOTCOUNT_MAGIC -> slot_magic e j <> 0xffffffff ->
  (forall i, 0 <= i < j -> slot_magic e i <> 0xffffffff) ->
  retval (mtd_resetbc e) = -3
  /\ mutations (trace (mtd_resetbc e)) = []
  /\ flash_after (mtd_resetbc e) = flash e.
Proof.
  intros Hready Hj Hnm Hnf Hbefore.
  destruct (leading_written_exists e (proj2 (proj2 Hready))) as (m & Hm).
  destruct (mtd_resetbc_ready e m Hready Hm) as (st & tr2 & Hpost & ->).
  destruct Hm as (Hr & Hw & Hstop).
  assert (m <= j) as Hle.
  { destruct (Z.le_gt_cases m j); [assumption|].
    exfalso. apply Hnm, Hw. lia. }
  assert (scan_exit e m = LoopCorrupt) as Hex.
  { unfold scan_exit.
    destruct (Z.ltb_spec m (num_bc (mtd_info e))); [|lia].
    assert (classify (slot_magic e m) = Corrupt) as ->; [|reflexivity].
    apply classify_corrupt. split; [apply Hstop; lia|].
    destruct (Z.eq_dec m j) as [->|?]; [exact Hnf|apply Hbefore; lia]. }
  rewrite Hex. unfold reset_after_scan.
  rewrite cleanup_mutations, (scan_post_mutations _ _ _ _ Hpost). auto.
Qed.

Lemma corrupt_magic_untouched_witness :
  retval (mtd_resetbc env_corrupt) = -3
  /\ mutations (trace (mtd_resetbc env_corrupt)) = []
  /\ flash_after (mtd_resetbc env_corrupt) = flash env_corrupt.
Proof.
  apply (corrupt_magic_untouched env_corrupt 1).
  - sample_ready.
  - vm_compute. split; [discriminate|reflexivity].
  - vm_compute. discriminate.
  - vm_compute. discriminate.
  - intros i Hi. assert (i = 0) as -> by lia. vm_compute. discriminate.
Defined.

(** ** The zero record *)

Lemma length_bytes_of_u32 be v : length (bytes_of_u32 be v) = 4%nat.
Proof. now destruct be. Qed.

Lemma length_zero_record be : length (zero_record be) = 12%nat.
Proof. now destruct be. Qed.

Lemma length_zero_slot be d :
  12 <= d -> length (zero_slot be d) = Z.to_nat d.
Proof.
  intros Hd. unfold zero_slot, sizeof_bootcounter.
  rewrite length_app, length_zero_record, repeat_length. lia.
Qed.

Lemma index_in_field c d o : c + d - (c + o) = d - o.
Proof. lia. Qed.

Ltac store_cases :=
  repeat first
    [ rewrite store_bytes_outside
        by (rewrite length_bytes_of_u32;
            unfold off_magic, off_count, off_checksum; lia)
    | rewrite store_bytes_inside
        by (rewrite length_bytes_of_u32;
            unfold off_magic, off_count, off_checksum; lia) ].

Lemma zero_record_at_outside e b c a :
  a < c \/ c + bc_offset_increment (mtd_info e) <= a ->
  zero_record_at e b c a = b a.
Proof.
  intros H. pose proof (increment_max (mtd_info e)) as Hinc.
  unfold zero_record_at, store_u32. store_cases.
  apply fill_bytes_outside. exact H.
Qed.

Lemma zero_record_at_inside e b c d :
  0 <= d < bc_offset_increment (mtd_info e) ->
  zero_record_at e b c (c + d)
  = nth (Z.to_nat d)
      (zero_slot (big_endian e) (bc_offset_increment (mtd_info e))) xff.
Proof.
  intros Hd. pose proof (increment_max (mtd_info e)) as Hinc.
  assert (d = 0 \/ d = 1 \/ d = 2 \/ d = 3 \/ d = 4 \/ d = 5 \/ d = 6
          \/ d = 7 \/ d = 8 \/ d = 9 \/ d = 10 \/ d = 11 \/ 12 <= d)
    as Hcases by lia.
  unfold zero_record_at, store_u32.
  destruct Hcases as
    [-> | [-> | [-> | [-> | [-> | [-> | [-> | [-> | [-> | [-> | [-> | [-> | Hge]]]]]]]]]]]];
    store_cases.
  13: { rewrite fill_bytes_inside by lia.
        unfold zero_slot, sizeof_bootcounter.
        rewrite app_nth2 by (rewrite length_zero_record; lia).
        now rewrite nth_repeat. }
  all: rewrite index_in_field; destruct (big_endian e); reflexivity.
Qed.

Lemma load_zero_slot e b c :
  load_bytes (zero_record_at e b c) c (bc_offset_increment (mtd_info e))
  = zero_slot (big_endian e) (bc_offset_increment (mtd_info e)).
Proof.
  pose proof (increment_max (mtd_info e)) as Hinc.
  apply (nth_ext _ _ xff xff).
  - rewrite load_bytes_length, length_zero_slot by lia. reflexivity.
  - intros k Hk. rewrite load_bytes_length in Hk.
    rewrite nth_load_bytes by exact Hk.
    rewrite zero_record_at_inside by lia.
    now rewrite Nat2Z.id.
Qed.

Lemma s32_nonzero x : 0 < x < 2 ^ 32 -> s32 x <> 0.
Proof.
  intros Hx. unfold s32.
  destruct (Z.lt_ge_cases x (2 ^ 31)).
  - rewrite Z.mod_small; lia.
  - replace (x + 2 ^ 31) with (x - 2 ^ 31 + 1 * 2 ^ 32) by lia.
    rewrite Z_mod_plus_full, Z.mod_small; lia.
Qed.

Lemma count_before_nonzero e m :
  0 < m -> slot_count e (m - 1) <> 0 -> count_before e m <> 0.
Proof.
  intros Hm Hc. unfold count_before.
  destruct (Z.eqb_spec m 0); [lia|].
  apply s32_nonzero.
  pose proof (load_u32_range (big_endian e) (flash e)
                ((m - 1) * bc_offset_increment (mtd_info e) + off_count)).
  unfold slot_count in *. lia.
Qed.

(** ** Erase and write-back *)

Lemma write_back_mutations e fl st tr c :
  curr st = Some c ->
  mutations (trace (write_back e fl st tr))
  = mutations tr
    ++ [EvPwrite (erase_start st)
          (load_bytes (zero_record_at e (buf st) c) 0
             (u32 (page_len st * bc_offset_increment (mtd_info e))))
          (pwrite_ret e (erase_start st)
             (u32 (page_len st * bc_offset_increment (mtd_info e))))].
Proof.
  intros Hc. unfold write_back. rewrite Hc. cbv zeta.
  destruct (_ <? 0); rewrite cleanup_mutations, !mutations_app; simpl;
    now rewrite app_nil_r.
Qed.

(** C4: when every slot holds a written record and the last count is not
    0, the run erases the whole device (offset 0, length [size]) once and,
    the erase having succeeded, writes once: one slot holding the zero
    record, at offset 0.  No other erase or write is issued. *)
Theorem full_log_whole_erase (e : environment) :
  ready e ->
  0 < num_bc (mtd_info e) ->
  written_upto e (num_bc (mtd_info e)) ->
  slot_count e (num_bc (mtd_info e) - 1) <> 0 ->
  0 <= memerase e 0 (size (mtd_info e)) ->
  mutations (trace (mtd_resetbc e))
  = [EvErase 0 (size (mtd_info e)) (memerase e 0 (size (mtd_info e)));
     EvPwrite 0
       (zero_slot (big_endian e) (bc_offset_increment (mtd_info e)))
       (pwrite_ret e 0 (bc_offset_increment (mtd_info e)))]
  /\ Z.of_nat
       (length (zero_slot (big_endian e) (bc_offset_increment (mtd_info e))))
     = bc_offset_increment (mtd_info e).
Proof.
  intros Hready Hn Hall Hcount Herase.
  pose proof Hready as (_ & _ & wf).
  pose proof (increment_range _ wf) as Hinc.
  split; [|rewrite length_zero_slot; lia].
  assert (leading_written e (num_bc (mtd_info e))) as Hm.
  { split; [lia|]. split; [exact Hall|lia]. }
  destruct (mtd_resetbc_ready e _ Hready Hm) as (st & tr2 & Hpost & ->).
  pose proof (scan_post_last_count _ _ _ _ _ Hpost) as Hlc.
  pose proof (scan_post_index _ _ _ _ _ Hpost) as Hi.
  pose proof (scan_post_mutations _ _ _ _ Hpost) as Hmut.
  pose proof (count_before_nonzero e _ Hn Hcount) as Hnz.
  unfold scan_exit. rewrite Z.ltb_irrefl.
  unfold reset_after_scan.
  destruct (Z.eqb_spec (last_count st) 0) as [?|_]; [congruence|].
  rewrite Hi, (num_bc_unsigned _ wf), Z.eqb_refl. cbv zeta.
  destruct (Z.ltb_spec (memerase e 0 (size (mtd_info e))) 0) as [?|_];
    [lia|].
  rewrite (write_back_mutations _ _ _ _ 0) by reflexivity.
  cbn [page_len erase_start buf].
  rewrite Z.mul_1_l, u32_small, load_zero_slot by lia.
  rewrite !mutations_app, Hmut. reflexivity.
Qed.

Lemma full_log_whole_erase_witness :
  mutations (trace (mtd_resetbc env_full))
  = [EvErase 0 64 0; EvPwrite 0 (zero_slot false 16) 16].
Proof.
  apply (full_log_whole_erase env_full).
  - sample_ready.
  - reflexivity.
  - intros j Hj. change (num_bc (mtd_info env_full)) with 4 in Hj.
    four_slots j Hj; reflexivity.
  - vm_compute. discriminate.
  - vm_compute. discriminate.
Defined.

(** ** The shape of every run *)

(** Whatever the device holds, the loop adds reads to the trace and, when
    it is left through the corruption exit, one message. *)
Lemma scan_trace_shape e (fuel : nat) : forall st tr ex st' tr',
  scan e fuel st tr = (ex, st', tr') ->
  exists rd lg,
    tr' = tr ++ rd ++ lg
    /\ Forall (fun ev => is_pread ev = true) rd
    /\ ((ex = LoopCorrupt
         /\ exists mg off, lg = [EvLog (ErrUnexpectedMagic mg off)])
        \/ (ex <> LoopCorrupt /\ lg = [])).
Proof.
  induction fuel as [|fuel IH]; intros st tr ex st' tr' H.
  - simpl in H. inversion H; subst. exists [], []. rewrite app_nil_r.
    repeat split; auto. right. split; [discriminate|reflexivity].
  - rewrite scan_unfold in H. cbv zeta in H.
    destruct (st_i st <? u32 (num_bc (mtd_info e))).
    + destruct (classify _).
      * inversion H; subst. eexists [_], [_].
        split; [now rewrite <- app_assoc|].
        split; [repeat constructor|]. left. split; [reflexivity|eauto].
      * inversion H; subst. eexists [_], [].
        split; [reflexivity|].
        split; [repeat constructor|]. right. split; [discriminate|reflexivity].
      * apply IH in H. destruct H as (rd & lg & -> & Hrd & Hlg).
        eexists (_ :: rd), lg.
        split; [now rewrite <- app_assoc|].
        split; [constructor; [reflexivity|exact Hrd]|exact Hlg].
    + inversion H; subst. exists [], []. rewrite app_nil_r.
      repeat split; auto. right. split; [discriminate|reflexivity].
Qed.

(** [curr] has been assigned whenever [last_count] is not 0. *)
Lemma scan_curr_assigned e (fuel : nat) : forall st tr ex st' tr',
  scan e fuel st tr = (ex, st', tr') ->
  (curr st = None -> last_count st = 0) ->
  curr st' = None -> last_count st' = 0.
Proof.
  induction fuel as [|fuel IH]; intros st tr ex st' tr' H Hinit.
  - simpl in H. inversion H; subst. exact Hinit.
  - rewrite scan_unfold in H. cbv zeta in H.
    destruct (st_i st <? u32 (num_bc (mtd_info e))).
    + destruct (classify _).
      * inversion H; subst. discriminate.
      * inversion H; subst. discriminate.
      * eapply IH; [exact H|]. discriminate.
    + inversion H; subst. exact Hinit.
Qed.

Lemma existsb_preads (p : event -> bool) rd :
  Forall (fun ev => is_pread ev = true) rd ->
  (forall off len, p (EvPread off len) = false) ->
  existsb p rd = false.
Proof.
  intros Hrd Hp. induction Hrd as [|ev rd Hev _ IH]; [reflexivity|].
  simpl. rewrite IH. destruct ev; try discriminate. now rewrite Hp.
Qed.

(** The end of a run that reaches the write-back. *)
Lemma write_back_shape e fl st tr :
  exists pre off data ret,
    trace (write_back e fl st tr)
    = tr ++ pre
      ++ EvPwrite off data ret
         :: (if ret <? 0 then [EvLog ErrWriteFailed]
             else [EvSync; EvLog NoticeResetDone])
      ++ [EvFree; EvClose]
    /\ retval (write_back e fl st tr) = (if ret <? 0 then -6 else 0)
    /\ ((curr st <> None /\ pre = [])
        \/ (curr st = None /\ pre = [EvReadIndeterminate])).
Proof.
  unfold write_back.
  destruct (curr st) as [c|]; cbv zeta iota beta.
  - exists [], (erase_start st),
      (load_bytes (zero_record_at e (buf st) c) 0
         (u32 (page_len st * bc_offset_increment (mtd_info e)))),
      (pwrite_ret e (erase_start st)
         (u32 (page_len st * bc_offset_increment (mtd_info e)))).
    destruct (_ <? 0); unfold cleanup; cbn [trace retval];
      rewrite <- !app_assoc;
      (split; [reflexivity|split; [reflexivity|]]);
      left; split; [discriminate|reflexivity | discriminate|reflexivity].
  - exists [EvReadIndeterminate], (erase_start st),
      (load_bytes (zero_record_at e (buf st) 0) 0
         (u32 (page_len st * bc_offset_increment (mtd_info e)))),
      (pwrite_ret e (erase_start st)
         (u32 (page_len st * bc_offset_increment (mtd_info e)))).
    destruct (_ <? 0); unfold cleanup; cbn [trace retval];
      rewrite <- !app_assoc;
      (split; [reflexivity|split; [reflexivity|]]);
      right; split; reflexivity.
Qed.

(** The result and the calls of the run: the result is one of 0, -1, ...,
    -6, and each value goes with one kind of failure shown by the trace:
    -1 a failed geometry query, -2 a failed allocation, -3 a reported
    magic, -4 a failed erase after the log-full notice (the whole-device
    erase), -5 a failed erase without it (the block erase), -6 a failed
    write, and 0 none of these. *)
Theorem result_codes (e : environment) :
  let o := mtd_resetbc e in
  In (retval o) [0; -1; -2; -3; -4; -5; -6]
  /\ (retval o = -1 <-> existsb getinfo_failed (trace o) = true)
  /\ (retval o = -2 <-> existsb malloc_failed (trace o) = true)
  /\ (retval o = -3 <-> existsb magic_reported (trace o) = true)
  /\ (retval o = -4 <->
      existsb erase_failed (trace o) = true
      /\ existsb log_full_noticed (trace o) = true)
  /\ (retval o = -5 <->
      existsb erase_failed (trace o) = true
      /\ existsb log_full_noticed (trace o) = false)
  /\ (retval o = -6 <-> existsb write_failed (trace o) = true)
  /\ (retval o = 0 <->
      existsb getinfo_failed (trace o) = false
      /\ existsb malloc_failed (trace o) = false
      /\ existsb magic_reported (trace o) = false
      /\ existsb erase_failed (trace o) = false
      /\ existsb write_failed (trace o) = false).
Proof.
  cbv zeta. unfold mtd_resetbc.
  destruct (getinfo_ok e) eqn:Hg; simpl negb; cbv iota.
  2: { unfold cleanup. destruct (junk_nonnull e); simpl;
       intuition (try discriminate; auto). }
  destruct (malloc_ok e) eqn:Ha; simpl negb; cbv iota.
  2: { unfold cleanup. simpl. intuition (try discriminate; auto). }
  cbv zeta.
  destruct (scan e _ (scan_init e) _) as [[ex st] tr2] eqn:Hscan.
  destruct (scan_trace_shape _ _ _ _ _ _ _ Hscan)
    as (rd & lg & -> & Hrd & Hlg).
  unfold reset_after_scan. cbv zeta.
  destruct Hlg as [(-> & mg & off & ->) | (Hne & ->)].
  - unfold cleanup. cbn [retval trace].
    rewrite !existsb_app, !(existsb_preads _ rd Hrd) by reflexivity.
    simpl. intuition (try discriminate; auto).
  - destruct ex; try contradiction;
      destruct (last_count st =? 0);
      destruct (st_i st =? u32 (num_bc (mtd_info e)));
      try destruct (memerase e 0 (size (mtd_info e)) <? 0) eqn:He0;
      try destruct (memerase e (u32 (erase_start st))
                      (u32 (erase_size (mtd_info e))) <? 0) eqn:He1;
      try match goal with
          | |- context [write_back e ?fl ?s ?t] =>
              destruct (write_back_shape e fl s t)
                as (pre & off & data & ret & -> & -> & Hpre);
              destruct (ret <? 0) eqn:Hw;
              destruct Hpre as [(_ & ->) | (_ & ->)]
          end;
      unfold cleanup; cbn [retval trace];
      rewrite !existsb_app, !(existsb_preads _ rd Hrd) by reflexivity;
      cbn [existsb getinfo_failed malloc_failed magic_reported erase_failed
           log_full_noticed write_failed orb negb app];
      rewrite ?He0, ?He1, ?Hw;
      cbn [orb In];
      intuition (try discriminate; auto).
Qed.

(** ** The result and its cause *)








(** ** The write request *)

(** A run makes no write request, and does not return -6, or makes one,
    the last call but for the flush, and returns by its result. *)
Lemma write_request_shape (e : environment) :
  (existsb is_pwrite (trace (mtd_resetbc e)) = false
   /\ retval (mtd_resetbc e) <> -6)
  \/ exists pre off data ret,
       trace (mtd_resetbc e)
       = pre ++ EvPwrite off data ret :: after_pwrite ret
       /\ existsb is_pwrite pre = false
       /\ retval (mtd_resetbc e) = (if ret <? 0 then -6 else 0).
Proof.
  unfold mtd_resetbc.
  destruct (getinfo_ok e) eqn:Hg; simpl negb; cbv iota.
  2: { left. unfold cleanup. destruct (junk_nonnull e); simpl;
       split; [reflexivity|discriminate|reflexivity|discriminate]. }
  destruct (malloc_ok e) eqn:Ha; simpl negb; cbv iota.
  2: { left. unfold cleanup. simpl. split; [reflexivity|discriminate]. }
  cbv zeta.
  destruct (scan e _ (scan_init e) _) as [[ex st] tr2] eqn:Hscan.
  destruct (scan_trace_shape _ _ _ _ _ _ _ Hscan)
    as (rd & lg & -> & Hrd & Hlg).
  assert (existsb is_pwrite lg = false) as Hlgw.
  { destruct Hlg as [(_ & mg & off & ->) | (_ & ->)]; reflexivity. }
  unfold reset_after_scan. cbv zeta.
  destruct ex;
    try destruct (last_count st =? 0);
    try destruct (st_i st =? u32 (num_bc (mtd_info e)));
    try destruct (memerase e 0 (size (mtd_info e)) <? 0);
    try destruct (memerase e (u32 (erase_start st))
                    (u32 (erase_size (mtd_info e))) <? 0);
    try match goal with
        | |- context [write_back e ?fl ?s ?t] =>
            right;
            destruct (write_back_shape e fl s t)
              as (pre & off & data & ret & -> & -> & Hpre);
            exists (t ++ pre), off, data, ret;
            split; [unfold after_pwrite; now rewrite <- !app_assoc|];
            split; [|reflexivity];
            destruct Hpre as [(_ & ->) | (_ & ->)];
            rewrite !existsb_app, (existsb_preads _ rd Hrd), Hlgw
              by reflexivity;
            reflexivity
        end;
    left; unfold cleanup; cbn [retval trace];
    rewrite !existsb_app, (existsb_preads _ rd Hrd), Hlgw by reflexivity;
    (split; [reflexivity|discriminate]).
Qed.

Lemma after_pwrite_no_write ret : existsb is_pwrite (after_pwrite ret) = false.
Proof. unfold after_pwrite. now destruct (ret <? 0). Qed.

Lemma existsb_false_In (p : event -> bool) tr ev :
  existsb p tr = false -> In ev tr -> p ev = false.
Proof.
  intros H Hin. destruct (p ev) eqn:Hp; [|reflexivity].
  assert (existsb p tr = true) as Ht by (apply existsb_exists; eauto).
  congruence.
Qed.

(** C10: -6 is returned exactly when the write request reports a negative
    result.  A write request that reports a non-negative result, be it
    smaller than the length asked for, is followed by the flush, and the
    run returns 0. *)
Theorem short_write_is_success (e : environment) :
  (retval (mtd_resetbc e) = -6 <->
   exists off data ret,
     In (EvPwrite off data ret) (trace (mtd_resetbc e)) /\ ret < 0)
  /\ (forall off data ret,
        In (EvPwrite off data ret) (trace (mtd_resetbc e)) ->
        0 <= ret ->
        retval (mtd_resetbc e) = 0
        /\ exists pre,
             trace (mtd_resetbc e)
             = pre ++ [EvPwrite off data ret; EvSync; EvLog NoticeResetDone;
                       EvFree; EvClose]).
Proof.
  destruct (write_request_shape e)
    as [(Hno & Hrv) | (pre & off & data & ret & Htr & Hpre & Hrv)].
  - split.
    + split; [contradiction|].
      intros (off & data & ret & Hin & _).
      now apply (existsb_false_In _ _ _ Hno) in Hin.
    + intros off data ret Hin.
      now apply (existsb_false_In _ _ _ Hno) in Hin.
  - assert (forall off' data' ret',
              In (EvPwrite off' data' ret') (trace (mtd_resetbc e)) ->
              off' = off /\ data' = data /\ ret' = ret) as Honly.
    { intros off' data' ret' Hin. rewrite Htr in Hin.
      apply in_app_or in Hin. destruct Hin as [Hin|[Heq|Hin]].
      - now apply (existsb_false_In _ _ _ Hpre) in Hin.
      - now inversion Heq.
      - now apply (existsb_false_In _ _ _ (after_pwrite_no_write ret)) in Hin. }
    rewrite Hrv, Htr. split.
    + destruct (Z.ltb_spec ret 0) as [Hlt|Hge].
      * split; [|reflexivity]. intros _. exists off, data, ret.
        split; [|exact Hlt]. apply in_or_app. right. now left.
      * split; [discriminate|].
        intros (off' & data' & ret' & Hin & Hneg).
        rewrite <- Htr in Hin.
        destruct (Honly _ _ _ Hin) as (_ & _ & ->). lia.
    + intros off' data' ret' Hin Hge.
      rewrite <- Htr in Hin.
      destruct (Honly _ _ _ Hin) as (-> & -> & ->).
      unfold after_pwrite.
      destruct (Z.ltb_spec ret 0) as [Hlt|_]; [lia|].
      split; [reflexivity|]. exists pre. reflexivity.
Qed.

Lemma short_write_is_success_witness :
  retval (mtd_resetbc env_short_write) = 0
  /\ exists pre,
       trace (mtd_resetbc env_short_write)
       = pre ++ [EvPwrite 0
                   (sample_record x05 x00 ++ sample_record x06 x00
                    ++ zero_slot false 16) 20;
                 EvSync; EvLog NoticeResetDone; EvFree; EvClose].
Proof.
  apply (proj2 (short_write_is_success env_short_write)).
  - vm_compute. tauto.
  - lia.
Defined.

(** ** The scratch buffer *)

Lemma filter_preads (p : event -> bool) rd :
  Forall (fun ev => is_pread ev = true) rd ->
  (forall off len, p (EvPread off len) = false) ->
  filter p rd = [].
Proof.
  intros Hrd Hp. induction Hrd as [|ev rd Hev _ IH]; [reflexivity|].
  simpl. rewrite IH. destruct ev; try discriminate. now rewrite Hp.
Qed.

(** Once the geometry query has succeeded, no indeterminate value is used,
    and the buffer is freed once if it was allocated and not at all if the
    allocation failed. *)
Lemma buffer_released_after_geometry (e : environment) :
  getinfo_ok e = true ->
  existsb is_indeterminate_use (trace (mtd_resetbc e)) = false
  /\ filter is_free (trace (mtd_resetbc e))
     = (if malloc_ok e then [EvFree] else []).
Proof.
  intros Hg. unfold mtd_resetbc. rewrite Hg. simpl negb. cbv iota.
  destruct (malloc_ok e) eqn:Ha; simpl negb; cbv iota.
  2: { unfold cleanup. simpl. split; reflexivity. }
  cbv zeta.
  destruct (scan e _ (scan_init e) _) as [[ex st] tr2] eqn:Hscan.
  pose proof (scan_curr_assigned _ _ _ _ _ _ _ Hscan (fun _ => eq_refl))
    as Hcurr.
  destruct (scan_trace_shape _ _ _ _ _ _ _ Hscan)
    as (rd & lg & -> & Hrd & Hlg).
  assert (existsb is_indeterminate_use lg = false /\ filter is_free lg = [])
    as (Hlg1 & Hlg2).
  { destruct Hlg as [(_ & mg & off & ->) | (_ & ->)]; split; reflexivity. }
  unfold reset_after_scan. cbv zeta.
  destruct ex;
    try destruct (Z.eqb_spec (last_count st) 0) as [Hz|Hnz];
    try destruct (st_i st =? u32 (num_bc (mtd_info e)));
    try destruct (memerase e 0 (size (mtd_info e)) <? 0);
    try destruct (memerase e (u32 (erase_start st))
                    (u32 (erase_size (mtd_info e))) <? 0);
    try match goal with
        | |- context [write_back e ?fl ?s ?t] =>
            destruct (write_back_shape e fl s t)
              as (pre & off & data & ret & -> & _ & Hpre);
            unfold after_pwrite;
            destruct (ret <? 0);
            (destruct Hpre as [(_ & ->) | (Hnone & _)];
             [|cbn [curr] in Hnone; try discriminate;
               apply Hcurr in Hnone; contradiction])
        end;
    unfold cleanup; cbn [trace];
    rewrite !existsb_app, !filter_app, (existsb_preads _ rd Hrd),
      (filter_preads _ rd Hrd), Hlg1, Hlg2 by reflexivity;
    split; reflexivity.
Qed.

(** C9, the defect: when the geometry query fails, the cleanup tests the
    pointer [page], which has not been assigned; on this device the
    indeterminate value is not null and is passed to free. *)
Theorem cleanup_reads_unassigned_page :
  retval (mtd_resetbc env_no_geometry) = -1
  /\ trace (mtd_resetbc env_no_geometry)
     = [EvGetInfo false; EvLog ErrNoMtdInfo; EvReadIndeterminate;
        EvFreeIndeterminate; EvClose].
Proof. split; reflexivity. Qed.

(** On every device whose geometry query fails the unassigned pointer is
    read. *)
Lemma geometry_failure_reads_page (e : environment) :
  getinfo_ok e = false ->
  In EvReadIndeterminate (trace (mtd_resetbc e)).
Proof.
  intros Hg. unfold mtd_resetbc, cleanup. rewrite Hg. simpl.
  right. right. now left.
Qed.

(** ** Which slots stop the scan *)

(** C7 as stated fails: slot 0 of this device has the magic 0xffffffff and
    a count field of 7, so it does not hold the erased-fill pattern; the
    scan takes it for an erased slot all the same and stops there. *)
Lemma whole_slot_rule_fails :
  slot_erased_fill env_ff_magic_only 0 = false
  /\ classify (slot_magic env_ff_magic_only 0) = Erased
  /\ exists st tr,
       scan env_ff_magic_only
         (Z.to_nat (u32 (num_bc (mtd_info env_ff_magic_only))))
         (scan_init env_ff_magic_only) (trace_before_scan env_ff_magic_only)
       = (LoopBreak, st, tr)
       /\ st_i st = 0.
Proof.
  split; [reflexivity|]. split; [reflexivity|].
  eexists _, _. split; reflexivity.
Qed.

(** C7, amended: a slot is taken for erased, and the scan stops there,
    exactly when its magic field is 0xffffffff, whatever its other bytes
    hold; it is taken for a written record exactly when its magic is
    BOOTCOUNT_MAGIC.  A slot holding the erased-fill pattern is among the
    slots taken for erased. *)
Theorem erased_by_magic_field (e : environment) (m : Z) :
  wf_info (mtd_info e) -> leading_written e m -> m < num_bc (mtd_info e) ->
  (classify (slot_magic e m) = Erased <-> slot_magic e m = 0xffffffff)
  /\ (forall j,
        classify (slot_magic e j) = Written
        <-> slot_magic e j = BOOTCOUNT_MAGIC)
  /\ (forall j,
        slot_erased_fill e j = true -> classify (slot_magic e j) = Erased)
  /\ (slot_magic e m = 0xffffffff <->
      exists st tr,
        scan e (Z.to_nat (u32 (num_bc (mtd_info e)))) (scan_init e)
          (trace_before_scan e)
        = (LoopBreak, st, tr)
        /\ st_i st = m).
Proof.
  intros wf Hm Hlt.
  split; [apply classify_erased|].
  split; [intros j; apply classify_written|].
  split; [intros j Hj; now apply classify_erased, erased_fill_magic|].
  destruct (scan_result e wf (trace_before_scan e) m Hm)
    as (st & tr & Hscan & Hpost).
  pose proof (scan_post_index _ _ _ _ _ Hpost) as Hi.
  rewrite Hscan. unfold scan_exit.
  destruct (Z.ltb_spec m (num_bc (mtd_info e))) as [_|?]; [|lia].
  destruct Hm as (_ & _ & Hstop). specialize (Hstop Hlt).
  destruct (classify (slot_magic e m)) eqn:Hcl.
  - apply classify_corrupt in Hcl. split.
    + intros Hff. now destruct Hcl.
    + intros (st' & tr' & Heq & _). discriminate.
  - apply classify_erased in Hcl. split.
    + intros _. exists st, tr. split; [reflexivity|exact Hi].
    + intros _. exact Hcl.
  - apply classify_written in Hcl. contradiction.
Qed.

Lemma erased_by_magic_field_witness :
  exists st tr,
    scan env_ff_magic_only
      (Z.to_nat (u32 (num_bc (mtd_info env_ff_magic_only))))
      (scan_init env_ff_magic_only) (trace_before_scan env_ff_magic_only)
    = (LoopBreak, st, tr)
    /\ st_i st = 0.
Proof.
  assert (wf_info (mtd_info env_ff_magic_only)) as wf
    by (unfold wf_info; simpl; lia).
  assert (leading_written env_ff_magic_only 0) as Hm.
  { split; [vm_compute; split; discriminate|]. split.
    - intros j Hj. lia.
    - intros _. vm_compute. discriminate. }
  apply (erased_by_magic_field env_ff_magic_only 0 wf Hm).
  - reflexivity.
  - reflexivity.
Defined.

(** ** Reset of a log with a free slot *)

Lemma write_back_some e fl st tr c :
  curr st = Some c ->
  write_back e fl st tr
  = let len := u32 (page_len st * bc_offset_increment (mtd_info e)) in
    let data := load_bytes (zero_record_at e (buf st) c) 0 len in
    let ret := pwrite_ret e (erase_start st) len in
    let tr1 := tr ++ [EvPwrite (erase_start st) data ret] in
    if ret <? 0 then
      cleanup e Block (-6) fl (tr1 ++ [EvLog ErrWriteFailed])
    else
      cleanup e Block 0
        (store_bytes fl (erase_start st) (firstn (Z.to_nat ret) data))
        (tr1 ++ [EvSync; EvLog NoticeResetDone]).
Proof. intros Hc. unfold write_back. rewrite Hc. reflexivity. Qed.

(** The run on a log whose slot [m] is the first free one, after a last
    record with a count other than 0: the block erase, then the
    write-back. *)
Lemma block_reset_run e m :
  ready e -> leading_written e m -> m < num_bc (mtd_info e) ->
  slot_magic e m = 0xffffffff ->
  0 < m -> slot_count e (m - 1) <> 0 ->
  exists st tr2,
    scan e (Z.to_nat (u32 (num_bc (mtd_info e)))) (scan_init e)
      (trace_before_scan e)
    = (LoopBreak, st, tr2)
    /\ after_read e (trace_before_scan e) m st tr2
    /\ mtd_resetbc e
       = let start := u32 (erase_start st) in
         let len := u32 (erase_size (mtd_info e)) in
         let ret := memerase e start len in
         let tr3 := tr2 ++ [EvErase start len ret] in
         if ret <? 0 then
           cleanup e Block (-5) (flash e) (tr3 ++ [EvLog (ErrEraseFailed ret)])
         else
           write_back e (fill_bytes (flash e) start len xff) st tr3.
Proof.
  intros Hready Hm Hlt Hff Hpos Hcount.
  pose proof Hready as (_ & _ & wf).
  destruct (scan_result e wf (trace_before_scan e) m Hm)
    as (st & tr2 & Hscan & Hpost).
  destruct (mtd_resetbc_ready e m Hready Hm) as (st' & tr2' & _ & Hrun).
  assert (scan_exit e m = LoopBreak) as Hex.
  { unfold scan_exit.
    destruct (Z.ltb_spec m (num_bc (mtd_info e))) as [_|?]; [|lia].
    apply classify_erased in Hff. now rewrite Hff. }
  assert (mtd_resetbc e = reset_after_scan e LoopBreak st tr2) as ->.
  { unfold mtd_resetbc. destruct Hready as (-> & -> & _). simpl negb.
    cbv iota zeta.
    change ([EvGetInfo true] ++ _) with (trace_before_scan e).
    now rewrite Hscan, Hex. }
  rewrite Hex in Hscan.
  unfold scan_post in Hpost.
  destruct (Z.ltb_spec m (num_bc (mtd_info e))) as [_|?]; [|lia].
  destruct Hpost as (tr1 & Hafter & ->).
  assert (scan_log e m = []) as Hlog.
  { unfold scan_log. apply classify_erased in Hff. now rewrite Hff. }
  rewrite Hlog, app_nil_r in *.
  exists st, tr1. split; [exact Hscan|]. split; [exact Hafter|].
  destruct Hafter as (Hi & _ & _ & _ & Hlc & _).
  pose proof (count_before_nonzero e m Hpos Hcount) as Hnz.
  unfold reset_after_scan.
  destruct (Z.eqb_spec (last_count st) 0) as [?|_]; [congruence|].
  rewrite Hi, (num_bc_unsigned _ wf).
  destruct (Z.eqb_spec m (num_bc (mtd_info e))) as [?|_]; [lia|].
  reflexivity.
Qed.

Lemma filter_pread_events d n :
  filter is_pread (pread_events d n) = pread_events d n.
Proof.
  unfold pread_events.
  induction (seq 0 n) as [|j l IH]; simpl; [reflexivity|now rewrite IH].
Qed.

Lemma filter_pwrite_pread_events d n :
  filter is_pwrite (pread_events d n) = [].
Proof.
  unfold pread_events.
  induction (seq 0 n) as [|j l IH]; simpl; auto.
Qed.

(** What the buffer holds when the write-back is issued from slot
    position [m mod page_num_bc]. *)
Lemma payload_contents e tr0 m st tr :
  wf_info (mtd_info e) -> 0 <= m ->
  after_read e tr0 m st tr ->
  let P := page_num_bc (mtd_info e) in
  let inc := bc_offset_increment (mtd_info e) in
  let data :=
    load_bytes (zero_record_at e (buf st) (m mod P * inc)) 0
      ((m mod P + 1) * inc) in
  Z.of_nat (length data) = (m mod P + 1) * inc
  /\ (forall t d, 0 <= t < m mod P -> 0 <= d < sizeof_bootcounter ->
        nth (Z.to_nat (t * inc + d)) data x00
        = flash e ((m / P * P + t) * inc + d))
  /\ (forall d, 0 <= d < inc ->
        nth (Z.to_nat (m mod P * inc + d)) data x00
        = nth (Z.to_nat d) (zero_slot (big_endian e) inc) xff).
Proof.
  intros wf Hm0 (_ & _ & _ & _ & _ & _ & Hbuf) P inc data.
  pose proof (increment_range _ wf) as Hinc.
  pose proof (page_num_bc_range _ wf) as HP.
  fold P inc in Hinc, HP, Hbuf.
  pose proof (Z.mod_pos_bound m P ltac:(lia)) as Hr.
  split; [|split].
  - unfold data. rewrite load_bytes_length. nia.
  - intros t d Ht Hd. unfold data, sizeof_bootcounter in *.
    rewrite nth_load_bytes by nia.
    rewrite Z2Nat.id, Z.add_0_l by nia.
    rewrite zero_record_at_outside by (fold inc; nia).
    apply Hbuf; unfold sizeof_bootcounter; lia.
  - intros d Hd. unfold data.
    rewrite nth_load_bytes by nia.
    rewrite Z2Nat.id, Z.add_0_l by nia.
    apply zero_record_at_inside. exact Hd.
Qed.

(** C6 as stated fails: with a record distance of 16 the scan reads 12
    bytes of each slot, not 16, and the write-back does not return slot 0
    byte for byte: its last four bytes, 0xff on the device, come back as
    the bytes the allocator left in the buffer. *)
Lemma stride_read_fails :
  bc_offset_increment (mtd_info env_two_records) = 16
  /\ filter is_pread (trace (mtd_resetbc env_two_records))
     = [EvPread 0 12; EvPread 16 12; EvPread 32 12]
  /\ retval (mtd_resetbc env_two_records) = 0
  /\ load_bytes (flash env_two_records) 0 16 = sample_record x05 xff
  /\ load_bytes (flash_after (mtd_resetbc env_two_records)) 0 16
     = sample_record x05 x00.
Proof. repeat split; reflexivity. Qed.

(** C6, amended: the scan reads, for every slot [i] it visits, the 12
    bytes of the record from device offset [i * increment] into the
    buffer at slot position [i mod page_num_bc]; when the first free slot
    [m] is not the last slot of its erase block and the block erase
    succeeds, the write-back carries [m mod page_num_bc + 1] slots, in
    which the 12 record bytes of every slot before the target are those
    read from the device and the target slot holds the zero record. *)
Theorem records_buffered_and_rewritten (e : environment) (m : Z) :
  ready e -> leading_written e m -> m < num_bc (mtd_info e) ->
  slot_magic e m = 0xffffffff ->
  0 < m -> slot_count e (m - 1) <> 0 ->
  (m + 1) mod page_num_bc (mtd_info e) <> 0 ->
  (forall start len, 0 <= memerase e start len) ->
  let P := page_num_bc (mtd_info e) in
  let inc := bc_offset_increment (mtd_info e) in
  let base := m / P * P in
  let n := m mod P + 1 in
  filter is_pread (trace (mtd_resetbc e)) = pread_events inc (Z.to_nat (m + 1))
  /\ (exists st tr,
        scan e (Z.to_nat (u32 (num_bc (mtd_info e)))) (scan_init e)
          (trace_before_scan e) = (LoopBreak, st, tr)
        /\ buf_holds e (buf st) base n)
  /\ exists off data ret,
       filter is_pwrite (trace (mtd_resetbc e)) = [EvPwrite off data ret]
       /\ Z.of_nat (length data) = n * inc
       /\ (forall t d, 0 <= t < n - 1 -> 0 <= d < sizeof_bootcounter ->
             nth (Z.to_nat (t * inc + d)) data x00
             = flash e ((base + t) * inc + d))
       /\ (forall d, 0 <= d < inc ->
             nth (Z.to_nat ((n - 1) * inc + d)) data x00
             = nth (Z.to_nat d) (zero_slot (big_endian e) inc) xff).
Proof.
  intros Hready Hm Hlt Hff Hpos Hcount Hnowrap Herase P inc base n.
  pose proof Hready as (_ & _ & wf).
  pose proof (increment_range _ wf) as Hinc.
  pose proof (page_num_bc_range _ wf) as HP.
  pose proof (page_fits _ wf) as Hfit.
  pose proof (erase_size_unsigned_range _ wf) as Hes.
  fold P inc in Hinc, HP, Hfit, Hes, Hnowrap.
  pose proof (Z.mod_pos_bound m P ltac:(lia)) as Hr.
  destruct (block_reset_run e m Hready Hm Hlt Hff Hpos Hcount)
    as (st & tr2 & Hscan & Hafter & Hrun).
  pose proof Hafter as (_ & Hpl & _ & Hcurr & _ & Htr & Hbuf).
  fold P inc in Hpl, Hcurr, Htr, Hbuf. fold base n in Hbuf.
  assert ((m + 1) mod P = n) as Hn.
  { destruct (Z.le_gt_cases P (m mod P + 1)) as [Hw|Hw].
    - destruct (succ_mod_wrap m P) as (H0 & _); lia.
    - destruct (succ_mod_same m P) as (H0 & _); lia. }
  rewrite Hn in Hpl.
  assert (u32 (page_len st * inc) = n * inc) as Hlen.
  { rewrite Hpl. apply u32_small. unfold n. nia. }
  cbv zeta in Hrun.
  destruct (Z.ltb_spec
              (memerase e (u32 (erase_start st))
                 (u32 (erase_size (mtd_info e)))) 0) as [Hneg|_].
  { specialize (Herase (u32 (erase_start st))
                  (u32 (erase_size (mtd_info e)))). lia. }
  rewrite (write_back_some _ _ _ _ _ Hcurr) in Hrun. cbv zeta in Hrun.
  fold inc in Hrun. rewrite Hlen in Hrun.
  set (data := load_bytes (zero_record_at e (buf st) (m mod P * inc)) 0
                 (n * inc)) in *.
  set (ret := pwrite_ret e (erase_start st) (n * inc)) in *.
  assert (trace (mtd_resetbc e)
          = ((tr2 ++ [EvErase (u32 (erase_start st))
                        (u32 (erase_size (mtd_info e)))
                        (memerase e (u32 (erase_start st))
                           (u32 (erase_size (mtd_info e))))])
             ++ [EvPwrite (erase_start st) data ret])
            ++ after_pwrite ret) as Htrace.
  { rewrite Hrun. unfold after_pwrite.
    destruct (ret <? 0); unfold cleanup; cbn [trace];
      now rewrite <- !app_assoc. }
  split; [|split].
  - rewrite Htrace, Htr, !filter_app, filter_pread_events.
    unfold after_pwrite. destruct (ret <? 0); simpl; now rewrite !app_nil_r.
  - exists st, tr2. split; [exact Hscan|exact Hbuf].
  - exists (erase_start st), data, ret. split.
    + rewrite Htrace, Htr, !filter_app, filter_pwrite_pread_events.
      unfold after_pwrite. destruct (ret <? 0); reflexivity.
    + replace (n - 1) with (m mod P) by (unfold n; lia).
      apply (payload_contents e _ m st tr2 wf ltac:(lia) Hafter).
Qed.

Lemma records_buffered_and_rewritten_witness :
  filter is_pread (trace (mtd_resetbc env_two_records))
  = pread_events 16 3.
Proof.
  assert (ready env_two_records) as Hready by sample_ready.
  assert (leading_written env_two_records 2) as Hm.
  { split; [vm_compute; split; discriminate|]. split.
    - intros j Hj. assert (j = 0 \/ j = 1) as [-> | ->] by lia; reflexivity.
    - intros _. vm_compute. discriminate. }
  apply (records_buffered_and_rewritten env_two_records 2 Hready Hm).
  - reflexivity.
  - reflexivity.
  - lia.
  - vm_compute. discriminate.
  - vm_compute. discriminate.
  - intros start len. simpl. lia.
Defined.

(** ** The free slot at the end of an erase block *)

(** C1, the defect: on a device of two blocks of two slots whose slot 0 is
    written with count 5, the first free slot is slot 1, the last of block
    0.  Reading it fills the buffer, so [page_len] returns to 0 and
    [erase_start] moves on to block 1 before the loop is left: the run
    erases block 1, writes nothing, and returns 0.  A fresh scan of the
    flash still finds slot 1 erased and the last count 5. *)
Theorem reset_lost_at_block_end :
  let o := mtd_resetbc env_last_slot_free in
  let e' := with_flash env_last_slot_free (flash_after o) in
  retval o = 0
  /\ mutations (trace o) = [EvErase 32 32 0; EvPwrite 32 [] 0]
  /\ slot_magic e' 1 = 0xffffffff
  /\ slot_magic e' 0 = BOOTCOUNT_MAGIC
  /\ slot_count e' 0 = 5
  /\ exists st tr,
       scan e' (Z.to_nat (u32 (num_bc (mtd_info e')))) (scan_init e') []
       = (LoopBreak, st, tr)
       /\ st_i st = 1 /\ last_count st = 5.
Proof.
  cbv zeta. repeat split; try reflexivity.
  eexists _, _. repeat split; reflexivity.
Qed.

(** ** The free slot elsewhere in its block *)

Lemma zero_slot_fields be d (m : mem) off :
  (forall k, 0 <= k < sizeof_bootcounter ->
     m (off + k) = nth (Z.to_nat k) (zero_slot be d) xff) ->
  load_u32 be m (off + off_magic) = BOOTCOUNT_MAGIC
  /\ load_u32 be m (off + off_count) = 0
  /\ load_u32 be m (off + off_checksum) = BOOTCOUNT_MAGIC.
Proof.
  intros H.
  assert (forall o, 0 <= o -> o + 4 <= sizeof_bootcounter ->
            load_u32 be m (off + o)
            = load_u32 be (fun a => nth (Z.to_nat a) (zero_slot be d) xff) o)
    as Hfield.
  { intros o Ho Ho'. apply load_u32_ext. intros b Hb.
    rewrite <- Z.add_assoc. apply H. lia. }
  unfold off_magic, off_count, off_checksum.
  rewrite !Hfield by (unfold sizeof_bootcounter; lia).
  unfold zero_slot. destruct be; repeat split; reflexivity.
Qed.

Lemma load_u32_erased be (m : mem) off :
  (forall b, 0 <= b < 4 -> m (off + b) = xff) ->
  load_u32 be m off = 0xffffffff.
Proof.
  intros H.
  rewrite (load_u32_ext be m (fun _ => xff) off 0) by (intros b Hb; auto).
  now destruct be.
Qed.

Lemma slot_magic_with_flash e fl j :
  slot_magic (with_flash e fl) j
  = load_u32 (big_endian e) fl
      (j * bc_offset_increment (mtd_info e) + off_magic).
Proof. reflexivity. Qed.

Lemma slot_count_with_flash e fl j :
  slot_count (with_flash e fl) j
  = load_u32 (big_endian e) fl
      (j * bc_offset_increment (mtd_info e) + off_count).
Proof. reflexivity. Qed.

Section BlockReset.
Variable e : environment.
Variable m : Z.
Hypothesis Hready : ready e.
Hypothesis Hm : leading_written e m.
Hypothesis Hlt : m < num_bc (mtd_info e).
Hypothesis Hff : slot_magic e m = 0xffffffff.
Hypothesis Hpos : 0 < m.
Hypothesis Hcount : slot_count e (m - 1) <> 0.
(** The free slot is not the last slot of its erase block. *)
Hypothesis Hnowrap : (m + 1) mod page_num_bc (mtd_info e) <> 0.
(** The erase unit fits an [int] and is a whole number of slots. *)
Hypothesis Hint : erasesize (mtd_info e) < 2 ^ 31.
Hypothesis Hwint : writesize (mtd_info e) < 2 ^ 31.
Hypothesis Hwhole :
  erase_size (mtd_info e)
  = page_num_bc (mtd_info e) * bc_offset_increment (mtd_info e).
Hypothesis Hbits : 32 <= size_t_bits e.
(** The device erases and writes what it is asked to. *)
Hypothesis Herase : forall start len, 0 <= memerase e start len.
Hypothesis Hwrite : forall off len, pwrite_ret e off len = len.

(** The flash after the run: the block of slot [m] erased, then
    overwritten from its start with the buffered slots. *)
Lemma block_reset_flash :
  let P := page_num_bc (mtd_info e) in
  let inc := bc_offset_increment (mtd_info e) in
  let data :=
    load_bytes (zero_record_at e
                  (buf (snd (fst (scan e
                     (Z.to_nat (u32 (num_bc (mtd_info e))))
                     (scan_init e) (trace_before_scan e)))))
                  (m mod P * inc)) 0
      ((m mod P + 1) * inc) in
  retval (mtd_resetbc e) = 0
  /\ flash_after (mtd_resetbc e)
     = store_bytes
         (fill_bytes (flash e) (m / P * P * inc) (P * inc) xff)
         (m / P * P * inc) data
  /\ mutations (trace (mtd_resetbc e))
     = [EvErase (m / P * P * inc) (P * inc)
          (memerase e (m / P * P * inc) (P * inc));
        EvPwrite (m / P * P * inc) data ((m mod P + 1) * inc)].
Proof.
  intros P inc.
  pose proof Hready as (_ & _ & wf).
  pose proof (increment_range _ wf) as Hinc.
  pose proof (page_num_bc_range _ wf) as HP.
  pose proof (num_bc_range _ wf) as Hn.
  pose proof (slots_fit _ wf) as Hslots.
  pose proof wf as (Hsz & _ & _).
  pose proof (erase_size_signed _ wf Hint Hwint) as Hsg.
  pose proof (increment_max (mtd_info e)) as Hmax.
  pose proof wf as (_ & Hesz & Hwsz).
  rewrite Hwhole in Hsg.
  fold P inc in Hinc, HP, Hslots, Hnowrap, Hwhole, Hsg, Hmax.
  pose proof (Z.mod_pos_bound m P ltac:(lia)) as Hr.
  pose proof (Z.div_mod m P ltac:(lia)) as Hdm.
  assert (0 <= m / P) as Hq by (apply Z.div_pos; lia).
  destruct (block_reset_run e m Hready Hm Hlt Hff Hpos Hcount)
    as (st & tr2 & Hscan & Hafter & Hrun).
  rewrite Hscan. cbn [fst snd].
  pose proof Hafter as (_ & Hpl & Hes & Hcurr & _ & Htr & _).
  fold P inc in Hpl, Hes, Hcurr, Htr.
  destruct (succ_mod_same m P) as (Hmod & Hdiv); try lia.
  { destruct (Z.le_gt_cases P (m mod P + 1)) as [Hw|Hw]; [|lia].
    destruct (succ_mod_wrap m P) as (H0 & _); lia. }
  rewrite Hmod in Hpl. rewrite Hdiv, Hwhole in Hes.
  assert (2 ^ 32 <= 2 ^ size_t_bits e) as Hpow
    by (apply Z.pow_le_mono_r; lia).
  assert (erase_start st = m / P * P * inc) as Hstart.
  { rewrite Hes. unfold to_size_t.
    rewrite Z.mul_assoc. apply Z.mod_small. nia. }
  assert (u32 (erase_start st) = m / P * P * inc) as Hstart32.
  { rewrite Hstart. apply u32_small. nia. }
  assert (u32 (erase_size (mtd_info e)) = P * inc) as Hlen32.
  { rewrite Hwhole. apply u32_small. lia. }
  assert (u32 (page_len st * inc) = (m mod P + 1) * inc) as Hlen.
  { rewrite Hpl. apply u32_small. nia. }
  cbv zeta in Hrun. rewrite Hstart32, Hlen32 in Hrun.
  destruct (Z.ltb_spec (memerase e (m / P * P * inc) (P * inc)) 0)
    as [Hneg|_].
  { specialize (Herase (m / P * P * inc) (P * inc)). lia. }
  rewrite (write_back_some _ _ _ _ _ Hcurr) in Hrun. cbv zeta in Hrun.
  fold inc in Hrun. rewrite Hlen, Hstart, Hwrite in Hrun.
  destruct (Z.ltb_spec ((m mod P + 1) * inc) 0) as [?|_]; [nia|].
  rewrite firstn_all2 in Hrun by (rewrite load_bytes_length; lia).
  rewrite Hrun. unfold cleanup. cbn [retval flash_after trace].
  split; [reflexivity|]. split; [reflexivity|].
  rewrite Htr, !mutations_app, mutations_pread_events. reflexivity.
Qed.
(** The flash after the run, byte by byte. *)
Lemma block_reset_bytes :
  let P := page_num_bc (mtd_info e) in
  let inc := bc_offset_increment (mtd_info e) in
  let fl' := flash_after (mtd_resetbc e) in
  (forall a, a < m / P * P * inc \/ (m / P * P + P) * inc <= a ->
     fl' a = flash e a)
  /\ (forall j d, m / P * P <= j < m -> 0 <= d < sizeof_bootcounter ->
        fl' (j * inc + d) = flash e (j * inc + d))
  /\ (forall d, 0 <= d < inc ->
        fl' (m * inc + d)
        = nth (Z.to_nat d) (zero_slot (big_endian e) inc) xff)
  /\ (forall a, (m + 1) * inc <= a < (m / P * P + P) * inc -> fl' a = xff).
Proof.
  intros P inc fl'.
  pose proof Hready as (_ & _ & wf).
  pose proof (increment_range _ wf) as Hinc.
  pose proof (page_num_bc_range _ wf) as HP.
  fold P inc in Hinc, HP, Hnowrap.
  pose proof (Z.mod_pos_bound m P ltac:(lia)) as Hr.
  pose proof (Z.div_mod m P ltac:(lia)) as Hdm.
  assert (0 <= m / P) as Hq by (apply Z.div_pos; lia).
  assert (m mod P + 1 < P) as Hroom.
  { destruct (Z.le_gt_cases P (m mod P + 1)) as [Hw|Hw]; [|lia].
    destruct (succ_mod_wrap m P) as (H0 & _); lia. }
  destruct block_reset_flash as (_ & Hfl & _).
  destruct (block_reset_run e m Hready Hm Hlt Hff Hpos Hcount)
    as (st & tr2 & Hscan & Hafter & _).
  rewrite Hscan in Hfl. cbn [fst snd] in Hfl.
  destruct (payload_contents e _ m st tr2 wf ltac:(lia) Hafter)
    as (Hlen & Hrec & Hzero).
  fold P inc in Hfl, Hlen, Hrec, Hzero.
  set (data := load_bytes (zero_record_at e (buf st) (m mod P * inc)) 0
                 ((m mod P + 1) * inc)) in *.
  fold fl' in Hfl.
  assert (m = m / P * P + m mod P) as Hsplit by lia.
  split; [|split; [|split]].
  - intros a Ha. rewrite Hfl.
    rewrite store_bytes_outside by nia.
    apply fill_bytes_outside. nia.
  - intros j d Hj Hd. rewrite Hfl. unfold sizeof_bootcounter in *.
    rewrite store_bytes_inside by nia.
    replace (j * inc + d - m / P * P * inc)
      with ((j - m / P * P) * inc + d) by ring.
    rewrite Hrec by (unfold sizeof_bootcounter; lia).
    f_equal. ring.
  - intros d Hd. rewrite Hfl.
    rewrite store_bytes_inside by nia.
    replace (m * inc + d - m / P * P * inc)
      with (m mod P * inc + d) by nia.
    apply Hzero. exact Hd.
  - intros a Ha. rewrite Hfl.
    rewrite store_bytes_outside by nia.
    apply fill_bytes_inside. nia.
Qed.

(** The log after the run: slot [m] holds a record with count 0, the
    records before it are as they were, and a fresh scan finds [m + 1]
    leading records; every slot of the rewritten block has the magic of
    a record or of an erased slot. *)
Lemma block_reset_effect :
  let P := page_num_bc (mtd_info e) in
  let e' := with_flash e (flash_after (mtd_resetbc e)) in
  retval (mtd_resetbc e) = 0
  /\ slot_magic e' m = BOOTCOUNT_MAGIC
  /\ slot_count e' m = 0
  /\ leading_written e' (m + 1)
  /\ (forall j, m / P * P <= j < m / P * P + P ->
        slot_magic e' j = BOOTCOUNT_MAGIC \/ slot_magic e' j = 0xffffffff).
Proof.
  intros P e'.
  pose proof Hready as (_ & _ & wf).
  pose proof (increment_range _ wf) as Hinc.
  pose proof (page_num_bc_range _ wf) as HP.
  fold P in HP, Hnowrap.
  set (inc := bc_offset_increment (mtd_info e)) in *.
  pose proof (Z.mod_pos_bound m P ltac:(lia)) as Hr.
  pose proof (Z.div_mod m P ltac:(lia)) as Hdm.
  assert (0 <= m / P) as Hq by (apply Z.div_pos; lia).
  assert (m mod P + 1 < P) as Hroom.
  { destruct (Z.le_gt_cases P (m mod P + 1)) as [Hw|Hw]; [|lia].
    destruct (succ_mod_wrap m P) as (H0 & _); lia. }
  destruct block_reset_flash as (Hrv & _).
  destruct block_reset_bytes as (Hout & Hrec & Hzero & Hrest).
  fold P inc in Hout, Hrec, Hzero, Hrest.
  set (fl' := flash_after (mtd_resetbc e)) in *.
  destruct (zero_slot_fields (big_endian e) inc fl' (m * inc))
    as (Hmagic & Hcnt & _).
  { intros k Hk. apply Hzero. unfold sizeof_bootcounter in *. lia. }
  destruct Hm as (Hrange & Hw & _).
  assert (forall j, 0 <= j < m -> slot_magic e' j = BOOTCOUNT_MAGIC)
    as Hkept.
  { intros j Hj. rewrite <- (Hw j Hj).
    unfold e'. rewrite slot_magic_with_flash. unfold slot_magic.
    fold inc. apply load_u32_ext. intros b Hb.
    unfold off_magic. rewrite Z.add_0_r.
    destruct (Z.lt_ge_cases j (m / P * P)).
    - apply Hout. nia.
    - apply Hrec; unfold sizeof_bootcounter; lia. }
  assert (forall j, m < j < m / P * P + P -> slot_magic e' j = 0xffffffff)
    as Hfree.
  { intros j Hj. unfold e'. rewrite slot_magic_with_flash. fold inc.
    apply load_u32_erased. intros b Hb.
    unfold off_magic. rewrite Z.add_0_r. apply Hrest. nia. }
  split; [exact Hrv|]. split; [exact Hmagic|]. split; [exact Hcnt|].
  split.
  - split; [change (mtd_info e') with (mtd_info e); lia|]. split.
    + intros j Hj. destruct (Z.eq_dec j m) as [->|?];
        [exact Hmagic|apply Hkept; lia].
    + intros _. rewrite Hfree by lia. discriminate.
  - intros j Hj.
    destruct (Z.lt_trichotomy j m) as [?|[->|?]].
    + left. apply Hkept. nia.
    + left. exact Hmagic.
    + right. apply Hfree. lia.
Qed.
End BlockReset.

(** ** The free slot at the end of its block, on every device *)

Section BlockEnd.
Variable e : environment.
Variable m : Z.
Hypothesis Hready : ready e.
Hypothesis Hm : leading_written e m.
Hypothesis Hlt : m < num_bc (mtd_info e).
Hypothesis Hff : slot_magic e m = 0xffffffff.
Hypothesis Hpos : 0 < m.
Hypothesis Hcount : slot_count e (m - 1) <> 0.
(** The free slot is the last slot of its erase block. *)
Hypothesis Hwrap : (m + 1) mod page_num_bc (mtd_info e) = 0.
Hypothesis Hint : erasesize (mtd_info e) < 2 ^ 31.
Hypothesis Hwint : writesize (mtd_info e) < 2 ^ 31.
Hypothesis Hwhole :
erase_size (mtd_info e)
= page_num_bc (mtd_info e) * bc_offset_increment (mtd_info e).
Hypothesis Hbits : 32 <= size_t_bits e.
Hypothesis Herase : forall start len, 0 <= memerase e start len.
Hypothesis Hwrite : forall off len, 0 <= pwrite_ret e off len.

(** The run returns 0 after erasing the block that follows slot [m] and
  writing nothing; the flash up to and including slot [m] is as it was,
  so slot [m] is still free and the last count is still not 0. *)
Lemma block_end_reset_lost :
let P := page_num_bc (mtd_info e) in
let inc := bc_offset_increment (mtd_info e) in
let e' := with_flash e (flash_after (mtd_resetbc e)) in
retval (mtd_resetbc e) = 0
/\ mutations (trace (mtd_resetbc e))
   = [EvErase ((m + 1) * inc) (P * inc)
        (memerase e ((m + 1) * inc) (P * inc));
      EvPwrite ((m + 1) * inc) [] (pwrite_ret e ((m + 1) * inc) 0)]
/\ (forall a, a < (m + 1) * inc ->
      flash_after (mtd_resetbc e) a = flash e a)
/\ slot_magic e' m = 0xffffffff
/\ slot_count e' (m - 1) = slot_count e (m - 1).
Proof.
intros P inc e'.
pose proof Hready as (_ & _ & wf).
pose proof (increment_range _ wf) as Hinc.
pose proof (page_num_bc_range _ wf) as HP.
pose proof (num_bc_range _ wf) as Hn.
pose proof (slots_fit _ wf) as Hslots.
pose proof wf as (Hsz & Hesz & Hwsz).
pose proof (erase_size_signed _ wf Hint Hwint) as Hsg.
pose proof (increment_max (mtd_info e)) as Hmax.
rewrite Hwhole in Hsg.
fold P inc in Hinc, HP, Hslots, Hwrap, Hwhole, Hsg, Hmax.
pose proof (Z.div_mod (m + 1) P ltac:(lia)) as Hdm.
rewrite Hwrap, Z.add_0_r in Hdm.
destruct (block_reset_run e m Hready Hm Hlt Hff Hpos Hcount)
  as (st & tr2 & Hscan & Hafter & Hrun).
pose proof Hafter as (_ & Hpl & Hes & Hcurr & _ & Htr & _).
fold P inc in Hpl, Hes, Hcurr, Htr.
rewrite Hwrap in Hpl. rewrite Hwhole in Hes.
assert (2 ^ 32 <= 2 ^ size_t_bits e) as Hpow
  by (apply Z.pow_le_mono_r; lia).
assert (erase_start st = (m + 1) * inc) as Hstart.
{ rewrite Hes. unfold to_size_t.
  replace ((m + 1) / P * (P * inc)) with ((m + 1) * inc) by nia.
  apply Z.mod_small. nia. }
assert (u32 (erase_start st) = (m + 1) * inc) as Hstart32.
{ rewrite Hstart. apply u32_small. nia. }
assert (u32 (erase_size (mtd_info e)) = P * inc) as Hlen32.
{ rewrite Hwhole. apply u32_small. lia. }
cbv zeta in Hrun. rewrite Hstart32, Hlen32 in Hrun.
destruct (Z.ltb_spec (memerase e ((m + 1) * inc) (P * inc)) 0) as [Hneg|_].
{ specialize (Herase ((m + 1) * inc) (P * inc)). lia. }
rewrite (write_back_some _ _ _ _ _ Hcurr) in Hrun. cbv zeta in Hrun.
fold inc in Hrun. rewrite Hpl, Hstart in Hrun.
change (u32 (0 * inc)) with 0 in Hrun.
change (load_bytes _ 0 0) with (@nil byte) in Hrun.
destruct (Z.ltb_spec (pwrite_ret e ((m + 1) * inc) 0) 0) as [Hneg|_].
{ specialize (Hwrite ((m + 1) * inc) 0). lia. }
rewrite firstn_nil in Hrun.
assert (forall a, a < (m + 1) * inc ->
          flash_after (mtd_resetbc e) a = flash e a) as Hkept.
{ intros a Ha. rewrite Hrun. unfold cleanup. cbn [flash_after].
  rewrite store_bytes_outside by (simpl; lia).
  apply fill_bytes_outside. lia. }
split; [now rewrite Hrun|]. split; [|split; [exact Hkept|split]].
- rewrite Hrun. unfold cleanup. cbn [trace].
  rewrite Htr, !mutations_app, mutations_pread_events. reflexivity.
- rewrite <- Hff. unfold e'. rewrite slot_magic_with_flash.
  unfold slot_magic. fold inc. apply load_u32_ext. intros b Hb.
  apply Hkept. unfold off_magic. lia.
- unfold e'. rewrite slot_count_with_flash.
  unfold slot_count. fold inc. apply load_u32_ext. intros b Hb.
  apply Hkept. unfold off_count. nia.
Qed.
End BlockEnd.

(** * Further properties of the run *)

(** ** Order of the calls *)


(** The erase and write calls of any run. *)
Lemma mutations_shape (e : environment) :
  mutations (trace (mtd_resetbc e)) = []
  \/ (exists s l r, r < 0 /\ mutations (trace (mtd_resetbc e)) = [EvErase s l r])
  \/ (exists s l r off data w,
        0 <= r
        /\ mutations (trace (mtd_resetbc e))
           = [EvErase s l r; EvPwrite off data w]).
Proof.
  unfold mtd_resetbc.
  destruct (getinfo_ok e) eqn:Hg; simpl negb; cbv iota.
  2: { left. now rewrite cleanup_mutations. }
  destruct (malloc_ok e) eqn:Ha; simpl negb; cbv iota.
  2: { left. now rewrite cleanup_mutations. }
  cbv zeta.
  destruct (scan e _ (scan_init e) _) as [[ex st] tr2] eqn:Hscan.
  destruct (scan_trace_shape _ _ _ _ _ _ _ Hscan)
    as (rd & lg & -> & Hrd & Hlg).
  assert (mutations lg = []) as Hlgm.
  { destruct Hlg as [(_ & mg & off & ->) | (_ & ->)]; reflexivity. }
  assert (mutations rd = []) as Hrdm.
  { apply filter_preads; [exact Hrd|reflexivity]. }
  assert (forall fl s t r sa la,
            mutations t = [EvErase sa la r] -> 0 <= r ->
            exists s0 l0 r0 off data w,
              0 <= r0
              /\ mutations (trace (write_back e fl s t))
                 = [EvErase s0 l0 r0; EvPwrite off data w]) as Hwb.
  { intros fl s t r sa la Ht Hr.
    destruct (write_back_shape e fl s t)
      as (pre & off & data & ret & -> & _ & Hpre).
    exists sa, la, r, off, data, ret. split; [exact Hr|].
    destruct Hpre as [(_ & ->) | (_ & ->)]; destruct (ret <? 0);
      rewrite !mutations_app, Ht; reflexivity. }
  unfold reset_after_scan. cbv zeta.
  assert (mutations
            (([EvGetInfo true]
              ++ [EvMalloc
                    (to_size_t (size_t_bits e) (erase_size (mtd_info e)))
                    true]) ++ rd ++ lg) = []) as Htr2.
  { now rewrite !mutations_app, Hrdm, Hlgm. }
  destruct ex.
  3: { left. now rewrite cleanup_mutations, Htr2. }
  all: destruct (last_count st =? 0);
    [left; now rewrite cleanup_mutations, Htr2|];
    destruct (st_i st =? u32 (num_bc (mtd_info e)));
    [ destruct (Z.ltb_spec (memerase e 0 (size (mtd_info e))) 0) as [Hr|Hr]
    | destruct (Z.ltb_spec (memerase e (u32 (erase_start st))
                              (u32 (erase_size (mtd_info e)))) 0)
        as [Hr|Hr] ];
    first
      [ right; left; do 3 eexists; split; [exact Hr|];
        rewrite cleanup_mutations, !mutations_app, Hrdm, Hlgm; reflexivity
      | right; right; eapply Hwb; [|exact Hr];
        rewrite !mutations_app, Hrdm, Hlgm; reflexivity ].
Qed.

Lemma filter_erase_mutations tr :
  filter is_erase (mutations tr) = filter is_erase tr.
Proof.
  unfold mutations.
  induction tr as [|ev tr IH]; [reflexivity|].
  destruct ev; simpl; rewrite ?IH; reflexivity.
Qed.

Lemma filter_pwrite_mutations tr :
  filter is_pwrite (mutations tr) = filter is_pwrite tr.
Proof.
  unfold mutations.
  induction tr as [|ev tr IH]; [reflexivity|].
  destruct ev; simpl; rewrite ?IH; reflexivity.
Qed.

(** X7: the run makes at most one erase request and at most one write
    request: its erase and write requests are none, or one erase that
    failed, or one erase that succeeded followed by one write.  So a
    write request is only made after an erase request that succeeded, and
    an erase request that failed is followed by no write. *)
Theorem write_only_after_erase (e : environment) :
  (length (filter is_erase (trace (mtd_resetbc e))) <= 1)%nat
  /\ (length (filter is_pwrite (trace (mtd_resetbc e))) <= 1)%nat
  /\ (mutations (trace (mtd_resetbc e)) = []
      \/ (exists s l r,
            r < 0 /\ mutations (trace (mtd_resetbc e)) = [EvErase s l r])
      \/ (exists s l r off data w,
            0 <= r
            /\ mutations (trace (mtd_resetbc e))
               = [EvErase s l r; EvPwrite off data w]))
  /\ (forall off data w,
        In (EvPwrite off data w) (trace (mtd_resetbc e)) ->
        exists s l r,
          0 <= r
          /\ mutations (trace (mtd_resetbc e))
             = [EvErase s l r; EvPwrite off data w])
  /\ (forall s l r,
        In (EvErase s l r) (trace (mtd_resetbc e)) -> r < 0 ->
        mutations (trace (mtd_resetbc e)) = [EvErase s l r]).
Proof.
  assert (forall ev, is_mutation ev = true ->
            In ev (trace (mtd_resetbc e)) ->
            In ev (mutations (trace (mtd_resetbc e)))) as Hin.
  { intros ev Hev H. apply filter_In. now split. }
  rewrite <- filter_erase_mutations, <- filter_pwrite_mutations.
  pose proof (mutations_shape e) as Hshape.
  split; [|split; [|split; [exact Hshape|]]].
  1, 2: destruct Hshape
    as [H0 | [(s & l & r & Hr & H1)
             | (s & l & r & off & data & w & Hr & H2)]];
    rewrite ?H0, ?H1, ?H2; simpl; lia.
  destruct Hshape
    as [H0 | [(s & l & r & Hr & H1) | (s & l & r & off & data & w & Hr & H2)]].
  - rewrite H0. split.
    + intros off data w H. apply Hin in H; [|reflexivity].
      rewrite H0 in H. contradiction.
    + intros s l r H. apply Hin in H; [|reflexivity].
      rewrite H0 in H. contradiction.
  - rewrite H1. split.
    + intros off data w H. apply Hin in H; [|reflexivity].
      rewrite H1 in H. destruct H as [H|[]]. discriminate.
    + intros s' l' r' H _. apply Hin in H; [|reflexivity].
      rewrite H1 in H. destruct H as [H|[]]. now rewrite H.
  - rewrite H2. split.
    + intros off' data' w' H. apply Hin in H; [|reflexivity].
      rewrite H2 in H. destruct H as [H|[H|[]]]; [discriminate|].
      inversion H; subst. exists s, l, r. split; [exact Hr|reflexivity].
    + intros s' l' r' H Hneg. apply Hin in H; [|reflexivity].
      rewrite H2 in H. destruct H as [H|[H|[]]]; [|discriminate].
      inversion H; subst. lia.
Qed.

Lemma write_only_after_erase_witness :
  exists s l r,
    0 <= r
    /\ mutations (trace (mtd_resetbc env_full))
       = [EvErase s l r; EvPwrite 0 (zero_slot false 16) 16].
Proof.
  apply (proj1 (proj2 (proj2 (proj2 (write_only_after_erase env_full))))).
  vm_compute. tauto.
Defined.

(** ** The run on a device that answers, case by case *)

Lemma count_before_positive e m :
  0 <= m -> count_before e m <> 0 -> 0 < m /\ slot_count e (m - 1) <> 0.
Proof.
  unfold count_before. intros Hm H.
  destruct (Z.eqb_spec m 0) as [->|Hne]; [contradiction|].
  split; [lia|]. intros Hc. apply H. now rewrite Hc.
Qed.

(** The erase and write requests of a run over a log with [m] leading
    written slots: none; or, the log being full, the whole-device erase
    and the write of one slot; or, slot [m] being free, the erase of one
    erase unit at [erase_start] and the write of the buffered slots. *)
Lemma ready_run_mutations e m :
  ready e -> leading_written e m ->
  let P := page_num_bc (mtd_info e) in
  let inc := bc_offset_increment (mtd_info e) in
  let es := to_size_t (size_t_bits e) ((m + 1) / P * erase_size (mtd_info e)) in
  let tr := trace (mtd_resetbc e) in
  mutations tr = []
  \/ (m = num_bc (mtd_info e) /\ 0 < m /\ slot_count e (m - 1) <> 0
      /\ exists r,
           (r < 0 /\ mutations tr = [EvErase 0 (size (mtd_info e)) r])
           \/ (0 <= r
               /\ exists w,
                    mutations tr
                    = [EvErase 0 (size (mtd_info e)) r;
                       EvPwrite 0 (zero_slot (big_endian e) inc) w]))
  \/ (m < num_bc (mtd_info e) /\ slot_magic e m = 0xffffffff
      /\ 0 < m /\ slot_count e (m - 1) <> 0
      /\ exists r data w,
           Z.of_nat (length data) = (m + 1) mod P * inc
           /\ ((r < 0
                /\ mutations tr
                   = [EvErase (u32 es) (u32 (erase_size (mtd_info e))) r])
               \/ (0 <= r
                   /\ mutations tr
                      = [EvErase (u32 es) (u32 (erase_size (mtd_info e))) r;
                         EvPwrite es data w]))).
Proof.
  intros Hready Hm P inc es tr.
  pose proof Hready as (_ & _ & wf).
  pose proof (increment_range _ wf) as Hinc.
  pose proof (page_num_bc_range _ wf) as HP.
  pose proof (page_fits _ wf) as Hfit.
  pose proof (erase_size_unsigned_range _ wf) as Heu.
  fold P inc in Hinc, HP, Hfit, Heu.
  destruct (mtd_resetbc_ready e m Hready Hm) as (st & tr2 & Hpost & Hrun).
  pose proof (scan_post_last_count _ _ _ _ _ Hpost) as Hlc.
  pose proof (scan_post_index _ _ _ _ _ Hpost) as Hi.
  pose proof (scan_post_mutations _ _ _ _ Hpost) as Hmut.
  destruct Hm as (Hrange & Hw & Hstop).
  unfold tr. rewrite Hrun. clear Hrun.
  unfold scan_exit, scan_post in *.
  destruct (Z.ltb_spec m (num_bc (mtd_info e))) as [Hlt|Hge].
  - specialize (Hstop Hlt).
    destruct (classify (slot_magic e m)) eqn:Hcl.
    + left. unfold reset_after_scan. now rewrite cleanup_mutations.
    + apply classify_erased in Hcl. unfold reset_after_scan.
      destruct (Z.eqb_spec (last_count st) 0) as [Hz|Hnz];
        [left; now rewrite cleanup_mutations|].
      rewrite Hlc in Hnz.
      destruct (count_before_positive e m ltac:(lia) Hnz) as (Hpos & Hcnt).
      rewrite Hi, (num_bc_unsigned _ wf).
      destruct (Z.eqb_spec m (num_bc (mtd_info e))) as [?|_]; [lia|].
      right. right. repeat (split; [assumption|]).
      destruct Hpost as (tr1 & (_ & Hpl & Hes & Hcurr & _) & _).
      fold P inc in Hpl, Hes, Hcurr. fold es in Hes.
      pose proof (Z.mod_pos_bound (m + 1) P ltac:(lia)) as Hr.
      assert (u32 (page_len st * inc) = (m + 1) mod P * inc) as Hlen.
      { rewrite Hpl. apply u32_small. nia. }
      cbv zeta. rewrite Hes.
      exists (memerase e (u32 es) (u32 (erase_size (mtd_info e)))),
        (load_bytes (zero_record_at e (buf st) (m mod P * inc)) 0
           ((m + 1) mod P * inc)),
        (pwrite_ret e es ((m + 1) mod P * inc)).
      split; [rewrite load_bytes_length; nia|].
      destruct (Z.ltb_spec
                  (memerase e (u32 es) (u32 (erase_size (mtd_info e)))) 0)
        as [Hneg|Hok].
      * left. split; [exact Hneg|].
        now rewrite cleanup_mutations, !mutations_app, Hmut.
      * right. split; [exact Hok|].
        rewrite (write_back_mutations _ _ _ _ _ Hcurr).
        fold inc. rewrite Hlen, Hes, mutations_app, Hmut. reflexivity.
    + apply classify_written in Hcl. contradiction.
  - assert (m = num_bc (mtd_info e)) as Heq by lia.
    unfold reset_after_scan.
    destruct (Z.eqb_spec (last_count st) 0) as [Hz|Hnz];
      [left; now rewrite cleanup_mutations|].
    rewrite Hlc in Hnz.
    destruct (count_before_positive e m ltac:(lia) Hnz) as (Hpos & Hcnt).
    rewrite Hi, (num_bc_unsigned _ wf), <- Heq, Z.eqb_refl.
    right. left. repeat (split; [first [reflexivity|assumption]|]).
    cbv zeta. exists (memerase e 0 (size (mtd_info e))).
    destruct (Z.ltb_spec (memerase e 0 (size (mtd_info e))) 0) as [Hneg|Hok].
    + left. split; [exact Hneg|].
      now rewrite cleanup_mutations, !mutations_app, Hmut.
    + right. split; [exact Hok|].
      exists (pwrite_ret e 0 inc).
      rewrite (write_back_mutations _ _ _ _ 0) by reflexivity.
      cbn [page_len erase_start buf]. fold inc.
      rewrite Z.mul_1_l, u32_small, load_zero_slot by lia.
      rewrite !mutations_app, Hmut. reflexivity.
Qed.

(** X8: when the run writes, the write starts where the erase request
    started, is a whole number of slots long and is no longer than the
    erased range: nothing is written outside the flash just erased. *)
Theorem write_inside_erased_range (e : environment) :
  ready e ->
  forall s l r off data w,
    mutations (trace (mtd_resetbc e)) = [EvErase s l r; EvPwrite off data w] ->
    u32 off = s
    /\ Z.of_nat (length data) <= l
    /\ Z.of_nat (length data) mod bc_offset_increment (mtd_info e) = 0.
Proof.
  intros Hready s l r off data w Hmut.
  pose proof Hready as (_ & _ & wf).
  pose proof (increment_range _ wf) as Hinc.
  pose proof (page_num_bc_range _ wf) as HP.
  pose proof (page_fits _ wf) as Hfit.
  pose proof (slots_fit _ wf) as Hslots.
  destruct (leading_written_exists e wf) as (m & Hm).
  destruct (ready_run_mutations e m Hready Hm)
    as [H0 | [(Hfull & Hpos & _ & r0 & Hc) | (_ & _ & _ & _ & r0 & d0 & w0 & Hlen & Hc)]];
    cbv zeta in *.
  - rewrite H0 in Hmut. discriminate.
  - destruct Hc as [(_ & H1) | (_ & w0 & H2)];
      [rewrite H1 in Hmut; discriminate|].
    rewrite H2 in Hmut. inversion Hmut; subst s l r off data w.
    rewrite length_zero_slot by lia.
    rewrite Z2Nat.id, Z_mod_same_full by lia.
    split; [reflexivity|]. split; [nia|reflexivity].
  - destruct Hc as [(_ & H1) | (_ & H2)];
      [rewrite H1 in Hmut; discriminate|].
    rewrite H2 in Hmut. inversion Hmut; subst s l r off data w.
    rewrite Hlen.
    pose proof (Z.mod_pos_bound (m + 1) (page_num_bc (mtd_info e))
                  ltac:(lia)) as Hr.
    split; [reflexivity|]. split; [nia|apply Z_mod_mult].
Qed.

Lemma write_inside_erased_range_witness :
  u32 0 = 0
  /\ Z.of_nat (length (zero_slot false 16)) <= 64
  /\ Z.of_nat (length (zero_slot false 16))
     mod bc_offset_increment (mtd_info env_full) = 0.
Proof.
  apply (write_inside_erased_range env_full ltac:(sample_ready)
           0 64 0 0 (zero_slot false 16) 16).
  reflexivity.
Defined.

(** X9: the flash is erased or written only when the last written record
    has a count other than 0, the log being full or its next slot having
    the magic of an erased slot. *)
Theorem flash_touched_only_for_nonzero_count (e : environment) (m : Z) :
  ready e -> leading_written e m ->
  mutations (trace (mtd_resetbc e)) <> [] ->
  0 < m /\ slot_count e (m - 1) <> 0
  /\ (m = num_bc (mtd_info e) \/ slot_magic e m = 0xffffffff).
Proof.
  intros Hready Hm Hmut.
  destruct (ready_run_mutations e m Hready Hm)
    as [H0 | [(Hfull & Hpos & Hc & _) | (_ & Hff & Hpos & Hc & _)]].
  - contradiction.
  - auto.
  - auto.
Qed.

Lemma flash_touched_only_for_nonzero_count_witness :
  0 < 2 /\ slot_count env_two_records (2 - 1) <> 0
  /\ (2 = num_bc (mtd_info env_two_records)
      \/ slot_magic env_two_records 2 = 0xffffffff).
Proof.
  apply (flash_touched_only_for_nonzero_count env_two_records 2).
  - sample_ready.
  - split; [vm_compute; split; discriminate|]. split.
    + intros j Hj. assert (j = 0 \/ j = 1) as [-> | ->] by lia; reflexivity.
    + intros _. vm_compute. discriminate.
  - vm_compute. discriminate.
Defined.

(** ** The reads *)

Lemma reset_after_scan_preads e ex st tr2 :
  filter is_pread (trace (reset_after_scan e ex st tr2))
  = filter is_pread tr2.
Proof.
  unfold reset_after_scan. cbv zeta.
  destruct ex;
    try destruct (last_count st =? 0);
    try destruct (st_i st =? u32 (num_bc (mtd_info e)));
    try destruct (memerase e 0 (size (mtd_info e)) <? 0);
    try destruct (memerase e (u32 (erase_start st))
                    (u32 (erase_size (mtd_info e))) <? 0);
    try match goal with
        | |- context [write_back e ?fl ?s ?t] =>
            destruct (write_back_shape e fl s t)
              as (pre & off & data & ret & -> & _ & Hpre);
            destruct Hpre as [(_ & ->) | (_ & ->)]; destruct (ret <? 0)
        end;
    unfold cleanup; cbn [trace]; rewrite !filter_app; cbn [filter is_pread app];
    now rewrite ?app_nil_r.
Qed.

Lemma In_pread_events d n off len :
  In (EvPread off len) (pread_events d n) ->
  len = sizeof_bootcounter
  /\ exists j, 0 <= j < Z.of_nat n /\ off = j * d.
Proof.
  unfold pread_events. intros H. apply in_map_iff in H.
  destruct H as (j & Heq & Hj). apply in_seq in Hj.
  inversion Heq; subst. split; [reflexivity|].
  exists (Z.of_nat j). split; [lia|reflexivity].
Qed.

(** X10: the run reads the slots in order from slot 0, 12 bytes each, up
    to and including the first slot that is not a written record, and no
    slot after it; every read lies inside the device. *)
Theorem reads_stop_at_first_unwritten (e : environment) (m : Z) :
  ready e -> leading_written e m ->
  filter is_pread (trace (mtd_resetbc e))
  = pread_events (bc_offset_increment (mtd_info e))
      (Z.to_nat (Z.min (m + 1) (num_bc (mtd_info e))))
  /\ forall off len,
       In (EvPread off len) (trace (mtd_resetbc e)) ->
       len = sizeof_bootcounter
       /\ 0 <= off /\ off + len <= size (mtd_info e).
Proof.
  intros Hready Hm.
  pose proof Hready as (_ & _ & wf).
  pose proof (increment_range _ wf) as Hinc.
  pose proof (num_bc_range _ wf) as Hn.
  pose proof (slots_fit _ wf) as Hslots.
  destruct (mtd_resetbc_ready e m Hready Hm) as (st & tr2 & Hpost & Hrun).
  destruct Hm as (Hrange & _ & _).
  assert (filter is_pread (trace (mtd_resetbc e))
          = pread_events (bc_offset_increment (mtd_info e))
              (Z.to_nat (Z.min (m + 1) (num_bc (mtd_info e))))) as Hreads.
  { rewrite Hrun, reset_after_scan_preads.
    unfold scan_post in Hpost.
    destruct (Z.ltb_spec m (num_bc (mtd_info e))) as [Hlt|Hge].
    - destruct Hpost as (tr1 & (_ & _ & _ & _ & _ & -> & _) & ->).
      rewrite Z.min_l by lia.
      rewrite !filter_app, filter_pread_events.
      unfold scan_log. destruct (classify (slot_magic e m)); simpl;
        now rewrite app_nil_r.
    - destruct Hpost as (_ & _ & _ & _ & _ & -> & _).
      rewrite Z.min_r by lia.
      replace (num_bc (mtd_info e)) with m by lia.
      now rewrite filter_app, filter_pread_events. }
  split; [exact Hreads|].
  intros off len Hin.
  assert (In (EvPread off len) (filter is_pread (trace (mtd_resetbc e))))
    as Hin' by (apply filter_In; now split).
  rewrite Hreads in Hin'. apply In_pread_events in Hin'.
  destruct Hin' as (-> & j & Hj & ->).
  unfold sizeof_bootcounter. split; [reflexivity|]. nia.
Qed.

Lemma reads_stop_at_first_unwritten_witness :
  filter is_pread (trace (mtd_resetbc env_corrupt))
  = pread_events (bc_offset_increment (mtd_info env_corrupt))
      (Z.to_nat (Z.min (1 + 1) (num_bc (mtd_info env_corrupt)))).
Proof.
  apply (reads_stop_at_first_unwritten env_corrupt 1).
  - sample_ready.
  - split; [vm_compute; split; discriminate|]. split.
    + intros j Hj. assert (j = 0) as -> by lia. reflexivity.
    + intros _. vm_compute. discriminate.
Defined.

(** ** After a reset *)

(** A run over a log whose last count is 0, or which has no record, and
    whose next slot, if any, has the magic of an erased slot. *)
Lemma zero_count_run e m :
  ready e -> leading_written e m ->
  count_before e m = 0 ->
  (m < num_bc (mtd_info e) -> slot_magic e m = 0xffffffff) ->
  retval (mtd_resetbc e) = 0
  /\ mutations (trace (mtd_resetbc e)) = []
  /\ flash_after (mtd_resetbc e) = flash e.
Proof.
  intros Hready Hm Hzero Hnext.
  destruct (mtd_resetbc_ready e m Hready Hm) as (st & tr2 & Hpost & ->).
  pose proof (scan_post_last_count _ _ _ _ _ Hpost) as Hlc.
  pose proof (scan_post_mutations _ _ _ _ Hpost) as Hmut.
  rewrite Hzero in Hlc.
  assert (scan_exit e m <> LoopCorrupt) as Hex.
  { unfold scan_exit.
    destruct (Z.ltb_spec m (num_bc (mtd_info e))); [|discriminate].
    specialize (Hnext ltac:(lia)). apply classify_erased in Hnext.
    now rewrite Hnext. }
  unfold reset_after_scan. rewrite Hlc. simpl Z.eqb. cbv iota.
  destruct (scan_exit e m); try contradiction;
    rewrite cleanup_mutations, Hmut; auto.
Qed.

Lemma ready_with_flash e fl : ready e -> ready (with_flash e fl).
Proof. intros H. exact H. Qed.


Ltac two_records_facts :=
  first
    [ sample_ready
    | reflexivity
    | lia
    | (vm_compute; discriminate)
    | (intros start len; simpl; lia)
    | (split; [vm_compute; split; discriminate|]; split;
       [ intros j Hj; assert (j = 0 \/ j = 1) as [-> | ->] by lia;
         reflexivity
       | intros _; vm_compute; discriminate ]) ].


(** X2: after such a reset a second run finds the count 0: it returns 0,
    makes no erase or write request and leaves the flash as the first run
    left it. *)
Theorem second_reset_does_nothing (e : environment) (m : Z) :
  ready e -> leading_written e m -> m < num_bc (mtd_info e) ->
  slot_magic e m = 0xffffffff ->
  0 < m -> slot_count e (m - 1) <> 0 ->
  (m + 1) mod page_num_bc (mtd_info e) <> 0 ->
  erasesize (mtd_info e) < 2 ^ 31 -> writesize (mtd_info e) < 2 ^ 31 ->
  erase_size (mtd_info e)
  = page_num_bc (mtd_info e) * bc_offset_increment (mtd_info e) ->
  32 <= size_t_bits e ->
  (forall start len, 0 <= memerase e start len) ->
  (forall off len, pwrite_ret e off len = len) ->
  let e' := with_flash e (flash_after (mtd_resetbc e)) in
  retval (mtd_resetbc e') = 0
  /\ mutations (trace (mtd_resetbc e')) = []
  /\ flash_after (mtd_resetbc e') = flash_after (mtd_resetbc e).
Proof.
  intros Hready Hm Hlt Hff Hpos Hcount Hnowrap Hint Hwint Hwhole Hbits
    Herase Hwrite e'.
  pose proof Hready as (_ & _ & wf).
  pose proof (page_num_bc_range _ wf) as HP.
  destruct (block_reset_effect e m Hready Hm Hlt Hff Hpos Hcount Hnowrap
              Hint Hwint Hwhole Hbits Herase Hwrite)
    as (_ & _ & Hcnt & Hlead & Hblock).
  cbv zeta in Hcnt, Hlead, Hblock. fold e' in Hcnt, Hlead, Hblock.
  apply (zero_count_run e' (m + 1)).
  - apply ready_with_flash, Hready.
  - exact Hlead.
  - unfold count_before.
    destruct (Z.eqb_spec (m + 1) 0); [reflexivity|].
    replace (m + 1 - 1) with m by lia. now rewrite Hcnt.
  - intros Hnext.
    set (P := page_num_bc (mtd_info e)) in *.
    pose proof (Z.mod_pos_bound m P ltac:(lia)) as Hr.
    pose proof (Z.div_mod m P ltac:(lia)) as Hdm.
    assert (m mod P + 1 < P) as Hroom.
    { destruct (Z.le_gt_cases P (m mod P + 1)) as [Hw|Hw]; [|lia].
      destruct (succ_mod_wrap m P) as (H0 & _); lia. }
    destruct (Hblock (m + 1) ltac:(lia)) as [Hmag|Hfree]; [|exact Hfree].
    destruct Hlead as (_ & _ & Hstop). now apply Hstop in Hmag.
Qed.

Lemma second_reset_does_nothing_witness :
  let e' := with_flash env_two_records
              (flash_after (mtd_resetbc env_two_records)) in
  retval (mtd_resetbc e') = 0
  /\ mutations (trace (mtd_resetbc e')) = []
  /\ flash_after (mtd_resetbc e') = flash_after (mtd_resetbc env_two_records).
Proof.
  apply (second_reset_does_nothing env_two_records 2); two_records_facts.
Defined.

(** X3: a reset with the first free slot [m] at the end of its erase
    block, on a device with a regular geometry whose requests succeed.
    The run returns 0 after erasing the block that follows slot [m] and
    writing zero bytes; the flash up to the end of slot [m] is as it was,
    so slot [m] still has the magic of an erased slot and the last count
    is the one found. *)
Theorem block_end_erases_next_block (e : environment) (m : Z) :
  ready e -> leading_written e m -> m < num_bc (mtd_info e) ->
  slot_magic e m = 0xffffffff ->
  0 < m -> slot_count e (m - 1) <> 0 ->
  (m + 1) mod page_num_bc (mtd_info e) = 0 ->
  erasesize (mtd_info e) < 2 ^ 31 -> writesize (mtd_info e) < 2 ^ 31 ->
  erase_size (mtd_info e)
  = page_num_bc (mtd_info e) * bc_offset_increment (mtd_info e) ->
  32 <= size_t_bits e ->
  (forall start len, 0 <= memerase e start len) ->
  (forall off len, 0 <= pwrite_ret e off len) ->
  let P := page_num_bc (mtd_info e) in
  let inc := bc_offset_increment (mtd_info e) in
  let e' := with_flash e (flash_after (mtd_resetbc e)) in
  retval (mtd_resetbc e) = 0
  /\ mutations (trace (mtd_resetbc e))
     = [EvErase ((m + 1) * inc) (P * inc)
          (memerase e ((m + 1) * inc) (P * inc));
        EvPwrite ((m + 1) * inc) [] (pwrite_ret e ((m + 1) * inc) 0)]
  /\ (forall a, a < (m + 1) * inc ->
        flash_after (mtd_resetbc e) a = flash e a)
  /\ slot_magic e' m = 0xffffffff
  /\ slot_count e' (m - 1) = slot_count e (m - 1).
Proof.
  intros Hready Hm Hlt Hff Hpos Hcount Hwrap Hint Hwint Hwhole Hbits
    Herase Hwrite.
  exact (block_end_reset_lost e m Hready Hm Hlt Hff Hpos Hcount Hwrap
           Hint Hwint Hwhole Hbits Herase Hwrite).
Qed.

Lemma block_end_erases_next_block_witness :
  retval (mtd_resetbc env_block_end) = 0
  /\ mutations (trace (mtd_resetbc env_block_end))
     = [EvErase 32 32 0; EvPwrite 32 [] 0].
Proof.
  destruct (block_end_erases_next_block env_block_end 1)
    as (H1 & H2 & _).
  - sample_ready.
  - split; [vm_compute; split; discriminate|]. split.
    + intros j Hj. assert (j = 0) as -> by lia. reflexivity.
    + intros _. vm_compute. discriminate.
  - reflexivity.
  - reflexivity.
  - lia.
  - vm_compute. discriminate.
  - reflexivity.
  - reflexivity.
  - reflexivity.
  - reflexivity.
  - simpl. lia.
  - intros start len. simpl. lia.
  - intros off len. simpl. lia.
  - split; [exact H1|exact H2].
Defined.

(** X4: a reset of a full log whose last count is not 0, on a device that
    erases and writes as asked.  The run returns 0; afterwards slot 0
    holds a record with count 0, every other byte of the device is 0xff,
    a fresh scan finds one leading record, and a second run returns 0
    without an erase or write request. *)
Theorem full_log_reset_effect (e : environment) :
  ready e ->
  0 < num_bc (mtd_info e) ->
  written_upto e (num_bc (mtd_info e)) ->
  slot_count e (num_bc (mtd_info e) - 1) <> 0 ->
  0 <= memerase e 0 (size (mtd_info e)) ->
  pwrite_ret e 0 (bc_offset_increment (mtd_info e))
  = bc_offset_increment (mtd_info e) ->
  let inc := bc_offset_increment (mtd_info e) in
  let fl' := flash_after (mtd_resetbc e) in
  let e' := with_flash e fl' in
  retval (mtd_resetbc e) = 0
  /\ (forall d, 0 <= d < inc ->
        fl' d = nth (Z.to_nat d) (zero_slot (big_endian e) inc) xff)
  /\ (forall a, inc <= a < size (mtd_info e) -> fl' a = xff)
  /\ (forall a, a < 0 \/ size (mtd_info e) <= a -> fl' a = flash e a)
  /\ slot_magic e' 0 = BOOTCOUNT_MAGIC
  /\ slot_count e' 0 = 0
  /\ leading_written e' 1
  /\ retval (mtd_resetbc e') = 0
  /\ mutations (trace (mtd_resetbc e')) = [].
Proof.
  intros Hready Hn Hall Hcount Herase Hwrite inc fl' e'.
  pose proof Hready as (_ & _ & wf).
  pose proof (increment_range _ wf) as Hinc.
  pose proof (slots_fit _ wf) as Hslots.
  fold inc in Hinc, Hslots, Hwrite.
  assert (leading_written e (num_bc (mtd_info e))) as Hm.
  { split; [lia|]. split; [exact Hall|lia]. }
  destruct (mtd_resetbc_ready e _ Hready Hm) as (st & tr2 & Hpost & Hrun).
  pose proof (scan_post_last_count _ _ _ _ _ Hpost) as Hlc.
  pose proof (scan_post_index _ _ _ _ _ Hpost) as Hi.
  pose proof (count_before_nonzero e _ Hn Hcount) as Hnz.
  unfold scan_exit in Hrun. rewrite Z.ltb_irrefl in Hrun.
  unfold reset_after_scan in Hrun.
  destruct (Z.eqb_spec (last_count st) 0) as [?|_]; [congruence|].
  rewrite Hi, (num_bc_unsigned _ wf), Z.eqb_refl in Hrun. cbv zeta in Hrun.
  destruct (Z.ltb_spec (memerase e 0 (size (mtd_info e))) 0) as [?|_];
    [lia|].
  rewrite (write_back_some _ _ _ _ 0) in Hrun by reflexivity.
  cbv zeta in Hrun. cbn [page_len erase_start buf] in Hrun.
  fold inc in Hrun.
  rewrite Z.mul_1_l, u32_small in Hrun by lia.
  unfold inc in Hrun at 1. rewrite load_zero_slot in Hrun. fold inc in Hrun.
  rewrite Hwrite in Hrun.
  destruct (Z.ltb_spec inc 0) as [?|_]; [lia|].
  rewrite firstn_all2 in Hrun by (rewrite length_zero_slot; lia).
  assert (fl' = store_bytes (fill_bytes (flash e) 0 (size (mtd_info e)) xff)
                  0 (zero_slot (big_endian e) inc)) as Hfl.
  { unfold fl'. now rewrite Hrun. }
  assert (Z.of_nat (length (zero_slot (big_endian e) inc)) = inc) as Hlen.
  { rewrite length_zero_slot; lia. }
  assert (forall d, 0 <= d < inc ->
            fl' d = nth (Z.to_nat d) (zero_slot (big_endian e) inc) xff)
    as Hzero.
  { intros d Hd. rewrite Hfl, store_bytes_inside by lia.
    rewrite Z.sub_0_r. apply nth_indep. lia. }
  assert (forall a, inc <= a < size (mtd_info e) -> fl' a = xff) as Hrest.
  { intros a Ha. rewrite Hfl, store_bytes_outside by lia.
    apply fill_bytes_inside. lia. }
  assert (forall a, a < 0 \/ size (mtd_info e) <= a -> fl' a = flash e a)
    as Hout.
  { intros a Ha. rewrite Hfl, store_bytes_outside by nia.
    apply fill_bytes_outside. lia. }
  destruct (zero_slot_fields (big_endian e) inc fl' 0) as (Hmagic & Hcnt & _).
  { intros k Hk. rewrite Z.add_0_l. apply Hzero.
    unfold sizeof_bootcounter in Hk. lia. }
  assert (slot_magic e' 0 = BOOTCOUNT_MAGIC) as Hmagic'.
  { unfold e'. rewrite slot_magic_with_flash. exact Hmagic. }
  assert (slot_count e' 0 = 0) as Hcnt'.
  { unfold e'. rewrite slot_count_with_flash. exact Hcnt. }
  assert (forall j, 0 < j < num_bc (mtd_info e) ->
            slot_magic e' j = 0xffffffff) as Hfree.
  { intros j Hj. unfold e'. rewrite slot_magic_with_flash. fold inc.
    apply load_u32_erased. intros b Hb. apply Hrest.
    unfold off_magic. nia. }
  assert (leading_written e' 1) as Hlead.
  { split; [change (mtd_info e') with (mtd_info e); lia|]. split.
    - intros j Hj. assert (j = 0) as -> by lia. exact Hmagic'.
    - change (mtd_info e') with (mtd_info e). intros Hlt.
      rewrite Hfree by lia. discriminate. }
  split; [now rewrite Hrun|].
  split; [exact Hzero|]. split; [exact Hrest|]. split; [exact Hout|].
  split; [exact Hmagic'|]. split; [exact Hcnt'|]. split; [exact Hlead|].
  destruct (zero_count_run e' 1) as (Hrv & Hmut & _).
  - apply ready_with_flash, Hready.
  - exact Hlead.
  - unfold count_before. simpl Z.eqb. cbv iota.
    change (1 - 1) with 0. now rewrite Hcnt'.
  - change (mtd_info e') with (mtd_info e). intros Hlt. apply Hfree. lia.
  - split; [exact Hrv|exact Hmut].
Qed.

Lemma full_log_reset_effect_witness :
  let e' := with_flash env_full (flash_after (mtd_resetbc env_full)) in
  retval (mtd_resetbc env_full) = 0
  /\ leading_written e' 1
  /\ mutations (trace (mtd_resetbc e')) = [].
Proof.
  destruct (full_log_reset_effect env_full)
    as (H1 & _ & _ & _ & _ & _ & H7 & _ & H9).
  - sample_ready.
  - reflexivity.
  - intros j Hj. change (num_bc (mtd_info env_full)) with 4 in Hj.
    four_slots j Hj; reflexivity.
  - vm_compute. discriminate.
  - vm_compute. discriminate.
  - reflexivity.
  - split; [exact H1|]. split; [exact H7|exact H9].
Defined.

(** X5: once the geometry query has succeeded, no indeterminate value is
    read or freed, and the scratch buffer is freed exactly once when the
    allocation succeeded and never when it failed. *)
Theorem buffer_freed_when_allocated (e : environment) :
  getinfo_ok e = true ->
  existsb is_indeterminate_use (trace (mtd_resetbc e)) = false
  /\ filter is_free (trace (mtd_resetbc e))
     = (if malloc_ok e then [EvFree] else []).
Proof. apply buffer_released_after_geometry. Qed.

Lemma buffer_freed_when_allocated_witness :
  existsb is_indeterminate_use (trace (mtd_resetbc env_no_memory)) = false
  /\ filter is_free (trace (mtd_resetbc env_no_memory)) = [].
Proof.
  apply (buffer_freed_when_allocated env_no_memory). reflexivity.
Defined.

(** ** Messages and the flush *)


(** ** Bounds *)

(** X13: when the loop is left, [curr] points at a whole slot inside the
    allocated buffer, so the zero record is built inside it, and the
    length of the write-back does not exceed the buffer. *)
Theorem zero_record_inside_buffer (e : environment) :
  ready e ->
  exists ex st tr,
    scan e (Z.to_nat (u32 (num_bc (mtd_info e)))) (scan_init e)
      (trace_before_scan e) = (ex, st, tr)
    /\ (forall c, curr st = Some c ->
          0 <= c
          /\ c + bc_offset_increment (mtd_info e)
             <= u32 (erase_size (mtd_info e)))
    /\ 0 <= page_len st * bc_offset_increment (mtd_info e)
       <= u32 (erase_size (mtd_info e)).
Proof.
  intros Hready. pose proof Hready as (_ & _ & wf).
  pose proof (increment_range _ wf) as Hinc.
  pose proof (page_num_bc_range _ wf) as HP.
  pose proof (page_fits _ wf) as Hfit.
  destruct (leading_written_exists e wf) as (m & Hm).
  destruct (scan_result e wf (trace_before_scan e) m Hm)
    as (st & tr & Hscan & Hpost).
  destruct Hm as (Hrange & _).
  exists (scan_exit e m), st, tr. split; [exact Hscan|].
  set (P := page_num_bc (mtd_info e)) in *.
  set (inc := bc_offset_increment (mtd_info e)) in *.
  assert (forall k, 0 <= k mod P * inc
                    /\ k mod P * inc + inc <= u32 (erase_size (mtd_info e)))
    as Hpos.
  { intros k. pose proof (Z.mod_pos_bound k P ltac:(lia)). nia. }
  unfold scan_post in Hpost.
  destruct (m <? num_bc (mtd_info e)).
  - destruct Hpost as (tr1 & (_ & Hpl & _ & Hcurr & _) & _).
    fold P inc in Hpl, Hcurr. rewrite Hpl. split.
    + intros c Hc. rewrite Hcurr in Hc. inversion Hc; subst. apply Hpos.
    + specialize (Hpos (m + 1)). lia.
  - destruct Hpost as (_ & Hpl & _ & Hcurr & _).
    fold P inc in Hpl, Hcurr. rewrite Hpl. split.
    + intros c Hc. rewrite Hcurr in Hc.
      destruct (m =? 0); [discriminate|].
      inversion Hc; subst. apply Hpos.
    + specialize (Hpos m). lia.
Qed.

Lemma zero_record_inside_buffer_witness :
  exists ex st tr,
    scan env_two_records
      (Z.to_nat (u32 (num_bc (mtd_info env_two_records))))
      (scan_init env_two_records) (trace_before_scan env_two_records)
    = (ex, st, tr)
    /\ (forall c, curr st = Some c ->
          0 <= c
          /\ c + bc_offset_increment (mtd_info env_two_records)
             <= u32 (erase_size (mtd_info env_two_records)))
    /\ 0 <= page_len st * bc_offset_increment (mtd_info env_two_records)
       <= u32 (erase_size (mtd_info env_two_records)).
Proof.
  apply (zero_record_inside_buffer env_two_records). sample_ready.
Defined.

(** X14: on a device with a regular geometry every erase request is
    either the whole-device erase (offset 0, length [size]) or covers one
    erase unit and starts at a multiple of the erase unit. *)
Theorem erase_requests_aligned (e : environment) :
  ready e ->
  erasesize (mtd_info e) < 2 ^ 31 -> writesize (mtd_info e) < 2 ^ 31 ->
  erase_size (mtd_info e)
  = page_num_bc (mtd_info e) * bc_offset_increment (mtd_info e) ->
  32 <= size_t_bits e ->
  forall s l r,
    In (EvErase s l r) (trace (mtd_resetbc e)) ->
    (s = 0 /\ l = size (mtd_info e))
    \/ (l = erase_size (mtd_info e) /\ s mod erase_size (mtd_info e) = 0
        /\ 0 <= s <= size (mtd_info e)).
Proof.
  intros Hready Hint Hwint Hwhole Hbits s l r Hin.
  pose proof Hready as (_ & _ & wf).
  pose proof (increment_range _ wf) as Hinc.
  pose proof (page_num_bc_range _ wf) as HP.
  pose proof (num_bc_range _ wf) as Hn.
  pose proof (slots_fit _ wf) as Hslots.
  pose proof wf as (Hsz & Hesz & Hwsz).
  pose proof (erase_size_signed _ wf Hint Hwint) as Hsg.
  pose proof (increment_max (mtd_info e)) as Hmax.
  assert (In (EvErase s l r) (mutations (trace (mtd_resetbc e)))) as Hin'
    by (apply filter_In; now split).
  destruct (leading_written_exists e wf) as (m & Hm).
  destruct (ready_run_mutations e m Hready Hm)
    as [H0 | [(_ & _ & _ & r0 & Hc) | (Hlt & _ & Hpos & _ & r0 & d0 & w0 & _ & Hc)]];
    cbv zeta in *.
  - rewrite H0 in Hin'. contradiction.
  - left.
    destruct Hc as [(_ & H1) | (_ & w0 & H1)]; rewrite H1 in Hin';
      [destruct Hin' as [H|[]] | destruct Hin' as [H|[H|[]]]];
      try discriminate; inversion H; subst; auto.
  - right.
    set (P := page_num_bc (mtd_info e)) in *.
    set (inc := bc_offset_increment (mtd_info e)) in *.
    set (q := (m + 1) / P) in *.
    assert (0 <= q) as Hq by (apply Z.div_pos; lia).
    assert (q * P <= m + 1) as Hqm.
    { unfold q. rewrite Z.mul_comm. apply Z.mul_div_le. lia. }
    assert (2 ^ 32 <= 2 ^ size_t_bits e) as Hpow
      by (apply Z.pow_le_mono_r; lia).
    assert (u32 (to_size_t (size_t_bits e) (q * erase_size (mtd_info e)))
            = q * erase_size (mtd_info e)) as Hs.
    { unfold to_size_t. rewrite Z.mod_small by nia. apply u32_small. nia. }
    assert (u32 (erase_size (mtd_info e)) = erase_size (mtd_info e)) as Hl.
    { apply u32_small. lia. }
    rewrite Hs, Hl in Hc.
    assert (s = q * erase_size (mtd_info e) /\ l = erase_size (mtd_info e))
      as (-> & ->).
    { destruct Hc as [(_ & H1) | (_ & H1)]; rewrite H1 in Hin';
        [destruct Hin' as [H|[]] | destruct Hin' as [H|[H|[]]]];
        try discriminate; inversion H; subst; auto. }
    split; [reflexivity|]. split; [apply Z_mod_mult|]. nia.
Qed.

Lemma erase_requests_aligned_witness :
  (0 = 0 /\ 64 = size (mtd_info env_two_records))
  \/ (64 = erase_size (mtd_info env_two_records)
      /\ 0 mod erase_size (mtd_info env_two_records) = 0
      /\ 0 <= 0 <= size (mtd_info env_two_records)).
Proof.
  apply (erase_requests_aligned env_two_records ltac:(sample_ready)
           ltac:(simpl; lia) ltac:(simpl; lia) eq_refl ltac:(simpl; lia)
           0 64 0).
  vm_compute. tauto.
Defined.
